(** * Coordinate engine and area streaming cache of the SLG map client

    Shallow embedding of [MapUtil] (src/unnamed/part_000) and of
    [MapAreaData] / [MapProxy] (src/assets/scripts/map/MapProxy.ts).

    JavaScript numbers are modelled by exact rationals [Q] where they carry
    pixel values (tile sizes, pixel points, viewport size) and by [Z] where
    the code only ever stores integers in them (cell counts, cell and area
    coordinates, ids, millisecond timestamps).  [Math.floor] and
    [Math.ceil] on a quotient are [Qfloor] / [Qceiling]; [Math.floor] of an
    integer quotient is [Z.div]; the JavaScript remainder [%] is [Z.rem]. *)

From Stdlib Require Import ZArith QArith Qround Qabs Qminmax Lqa List.
From Stdlib Require String.
From stdpp Require Import base gmap.
Import ListNotations.

Open Scope Z_scope.

(** ** Data model *)

(** A pixel point or pixel vector ([cc.Vec2] holding pixel values). *)
Record Vec2 := v2 { vx : Q; vy : Q }.

(** A cell or area coordinate ([cc.Vec2] holding integers). *)
Record Cell := cell { cx : Z; cy : Z }.

(** A pixel size ([cc.Size] holding pixel values). *)
Record Size := size { width : Q; height : Q }.

(** A size counted in cells or areas ([cc.Size] holding integers). *)
Record CSize := csize { cwidth : Z; cheight : Z }.

(** The static fields of [MapUtil], together with the visible size of the
    view ([view.getVisibleSize()]), which [initMapConfig] and
    [MapProxy.setCurCenterPoint] both read. *)
Record MapUtil := {
  _mapPixelSize : Size;
  _mapOffsetPoint : Vec2;
  _tileSize : Size;
  _mapSize : CSize;
  _zeroPixelPoint : Vec2;
  _areaCellSize : CSize;
  _areaSize : CSize;
  visibleSize : Size
}.

(** [Array.prototype.indexOf] on number arrays: the first index, or -1. *)
Fixpoint indexOf_from (l : list Z) (v : Z) (i : Z) : Z :=
  match l with
  | [] => -1
  | h :: t => if h =? v then i else indexOf_from t v (i + 1)
  end.

Definition indexOf (l : list Z) (v : Z) : Z := indexOf_from l v 0.

(** [Vec2.add] / [Vec2.subtract]. *)
Definition vadd (a b : Vec2) : Vec2 := v2 (vx a + vx b)%Q (vy a + vy b)%Q.
Definition vsub (a b : Vec2) : Vec2 := v2 (vx a - vx b)%Q (vy a - vy b)%Q.

(** ** MapUtil *)

(** [MapUtil.initMapConfig]: [uit] is the map node's [UITransform]
    (width, height, anchorX, anchorY), [tile] is [map.getTileSize()],
    [msize] is [map.getMapSize()] and [vsize] is [view.getVisibleSize()]. *)
Definition initMapConfig (uit_w uit_h anchorX anchorY : Q) (tile : Size)
    (msize : CSize) (vsize : Size) : MapUtil :=
  let showH : Z :=
    Z.min (Qceiling (height vsize / height tile / 2) * 2 + 2) (cheight msize) in
  {| _mapPixelSize := size uit_w uit_h;
     _mapOffsetPoint := v2 (uit_w * anchorX) (uit_h * anchorY);
     _tileSize := tile;
     _mapSize := msize;
     _zeroPixelPoint :=
       v2 (inject_Z (cwidth msize) * width tile * (1#2))
          (inject_Z (cheight msize) * height tile - height tile * (1#2));
     _areaCellSize := csize showH showH;
     _areaSize := csize (Qceiling (inject_Z (cwidth msize) / inject_Z showH))
                        (Qceiling (inject_Z (cheight msize) / inject_Z showH));
     visibleSize := vsize |}.

Section MapUtilOps.

Variable mu : MapUtil.

Definition areaCount : Z := cwidth (_areaSize mu) * cheight (_areaSize mu).

Definition getIdByAreaPoint (x y : Z) : Z := x + y * cwidth (_areaSize mu).

Definition getAreaPointById (id : Z) : Cell :=
  cell (Z.rem id (cwidth (_areaSize mu))) (id / cwidth (_areaSize mu)).

Definition get9GridAreaIds (id : Z) : list Z :=
  let w := cwidth (_areaSize mu) in
  [id + w - 1; id + w; id + w + 1;
   id - 1; id; id + 1;
   id - w - 1; id - w; id - w + 1].

Definition isVaildAreaId (id : Z) : bool :=
  (0 <=? id) && (id <? areaCount).

(** The loop of [get9GridVaildAreaIds] keeps the valid ids in order. *)
Definition get9GridVaildAreaIds (id : Z) : list Z :=
  List.filter (fun i => isVaildAreaId i) (get9GridAreaIds id).

Definition getAreaPointByCellPoint (x y : Z) : Cell :=
  cell (x / cwidth (_areaCellSize mu)) (y / cheight (_areaCellSize mu)).

Definition getAreaIdByCellPoint (x y : Z) : Z :=
  let p := getAreaPointByCellPoint x y in getIdByAreaPoint (cx p) (cy p).

Definition getStartCellPointByAreaPoint (x y : Z) : Cell :=
  cell (x * cwidth (_areaCellSize mu)) (y * cheight (_areaCellSize mu)).

Definition getEndCellPointByAreaPoint (x y : Z) : Cell :=
  cell ((x + 1) * cwidth (_areaCellSize mu)) ((y + 1) * cheight (_areaCellSize mu)).

Definition worldPixelToMapCellPoint (p : Vec2) : Cell :=
  let tw := width (_tileSize mu) in
  let th := height (_tileSize mu) in
  cell (Qfloor ((1#2) * inject_Z (cheight (_mapSize mu)) + vx p / tw - vy p / th))
       (Qfloor ((3#2) * inject_Z (cwidth (_mapSize mu)) - vx p / tw - vy p / th)).

Definition mapCellToWorldPixelPoint (p : Cell) : Vec2 :=
  let tw := width (_tileSize mu) in
  let th := height (_tileSize mu) in
  v2 (vx (_zeroPixelPoint mu) - inject_Z (cy p - cx p) * tw * (1#2))
     (vy (_zeroPixelPoint mu) - inject_Z (cx p + cy p) * th * (1#2)).

Definition mapCellToPixelPoint (p : Cell) : Vec2 :=
  vsub (mapCellToWorldPixelPoint p) (_mapOffsetPoint mu).

Definition mapPixelToCellPoint (p : Vec2) : Cell :=
  worldPixelToMapCellPoint (vadd p (_mapOffsetPoint mu)).

(** [getVaildAreaIdsByPixelPoints]: valid area ids of the points, without
    duplicates, in order of first appearance. *)
Definition getVaildAreaIdsByPixelPoints (points : list Vec2) : list Z :=
  fold_left (fun list p =>
      let cellPoint := mapPixelToCellPoint p in
      let areaPoint := getAreaPointByCellPoint (cx cellPoint) (cy cellPoint) in
      let index := getIdByAreaPoint (cx areaPoint) (cy areaPoint) in
      if isVaildAreaId index && (indexOf list index =? -1)
      then list ++ [index] else list)
    points [].

Definition mapCellCount : Z := cwidth (_mapSize mu) * cheight (_mapSize mu).

Definition getIdByCellPoint (x y : Z) : Z := x + y * cwidth (_mapSize mu).

Definition getCellPointById (id : Z) : Cell :=
  cell (Z.rem id (cwidth (_mapSize mu))) (id / cwidth (_mapSize mu)).

Definition get9GridCellIds (id : Z) : list Z :=
  let w := cwidth (_mapSize mu) in
  [id + w - 1; id + w; id + w + 1;
   id - 1; id; id + 1;
   id - w - 1; id - w; id - w + 1].

Definition getSideIdsForRoleCity (id : Z) : list Z :=
  let w := cwidth (_mapSize mu) in
  [id + w * 2 - 2; id + w * 2 - 1; id + w * 2; id + w * 2 + 1; id + w * 2 + 2;
   id + w - 2; id + w + 2;
   id - 2; id + 2;
   id - w - 2; id - w + 2;
   id - w * 2 - 2; id - w * 2 - 1; id - w - 1; id - w * 2 + 1; id - w * 2 + 2].

(** [a, a+1, ..., a+n-1]: the values of a counting [for] loop. *)
Fixpoint zrange (a : Z) (n : nat) : list Z :=
  match n with
  | O => []
  | S n' => a :: zrange (a + 1) n'
  end.

(** The influence distance of a system city of level [level]. *)
Definition sysCityDis (level : Z) : Z :=
  if 8 <=? level then 3 else if 5 <=? level then 2 else 1.

(** [getSideIdsForSysCity]: the four loops [for (t = c - dis; t <= c + dis;
    t++)], each running [2 * dis + 1] times. *)
Definition getSideIdsForSysCity (x y level : Z) : list Z :=
  let dis := sysCityDis level in
  let n := Z.to_nat (2 * dis + 1) in
  map (fun tx => getIdByCellPoint tx (y + dis)) (zrange (x - dis) n) ++
  map (fun tx => getIdByCellPoint tx (y - dis)) (zrange (x - dis) n) ++
  map (fun ty => getIdByCellPoint (x - dis) ty) (zrange (y - dis) n) ++
  map (fun ty => getIdByCellPoint (x + dis) ty) (zrange (y - dis) n).

Definition isVaildCellPoint (point : Cell) : bool :=
  (0 <=? cx point) && (cx point <? cwidth (_mapSize mu)) &&
  (0 <=? cy point) && (cy point <? cheight (_mapSize mu)).

Definition isVaildAreaPoint (point : Cell) : bool :=
  (0 <=? cx point) && (cx point <? cwidth (_areaSize mu)) &&
  (0 <=? cy point) && (cy point <? cheight (_areaSize mu)).

End MapUtilOps.

(** ** MapAreaData *)

Definition MAX_TIME : Z := 10000.

Record MapAreaData := {
  mad_id : Z;
  mad_x : Z;
  mad_y : Z;
  startCellX : Z;
  startCellY : Z;
  endCellX : Z;
  endCellY : Z;
  len : Z;
  qryStartTime : Z
}.

(** [checkAndUpdateQryTime], with [Date.now()] passed in as [nowTime]:
    the answer and the descriptor after the call. *)
Definition checkAndUpdateQryTime (d : MapAreaData) (nowTime : Z) : bool * MapAreaData :=
  if MAX_TIME <=? nowTime - qryStartTime d
  then (true, {| mad_id := mad_id d; mad_x := mad_x d; mad_y := mad_y d;
                 startCellX := startCellX d; startCellY := startCellY d;
                 endCellX := endCellX d; endCellY := endCellY d;
                 len := len d; qryStartTime := nowTime |})
  else (false, d).

Definition fuzzyEquals (this : MapAreaData) (other : option MapAreaData) (variance : Z) : bool :=
  match other with
  | None => false
  | Some o =>
      (mad_x this - variance <=? mad_x o) && (mad_x o <=? mad_x this + variance)
      && (mad_y this - variance <=? mad_y o) && (mad_y o <=? mad_y this + variance)
  end.

(** ** MapProxy *)

(** The fields of [MapProxy] that the area streaming touches; the array
    [_mapAreaDatas] is only read and written at area ids, with
    [undefined] entries absent from the map. *)
Record MapProxy := {
  _curCenterPoint : option Cell;
  _curCenterAreaId : Z;
  _mapAreaDatas : gmap Z MapAreaData;
  qryAreaIds : list Z
}.

(** Events sent through [EventMgr.emit]. *)
Inductive LogicEvent :=
| mapEenterChange (p : Cell)
| mapShowAreaChange (p : Cell) (areaId : Z) (addIds removeIds : list Z).

(** State of a fresh proxy (and after [clearData]). *)
Definition emptyProxy : MapProxy :=
  {| _curCenterPoint := None; _curCenterAreaId := -1;
     _mapAreaDatas := ∅; qryAreaIds := [] |}.

Section MapProxyOps.

Variable mu : MapUtil.

(** [MapProxy.getMapAreaData]: the descriptor and the store after the call. *)
Definition getMapAreaData (datas : gmap Z MapAreaData) (id : Z)
    : MapAreaData * gmap Z MapAreaData :=
  match datas !! id with
  | Some d => (d, datas)
  | None =>
      let point := getAreaPointById mu id in
      let startCellPoint := getStartCellPointByAreaPoint mu (cx point) (cy point) in
      let data := {| mad_id := id; mad_x := cx point; mad_y := cy point;
                     startCellX := cx startCellPoint; startCellY := cy startCellPoint;
                     endCellX := cx startCellPoint + cwidth (_areaCellSize mu);
                     endCellY := cy startCellPoint + cwidth (_areaCellSize mu);
                     len := cwidth (_areaCellSize mu); qryStartTime := 0 |} in
      (data, <[id := data]> datas)
  end.

(** The four screen corners around [pixelPoint] used on a full reload,
    preceded by the center itself, in the order of the call. *)
Definition cornerPoints (pixelPoint : Vec2) : list Vec2 :=
  let hw := (width (visibleSize mu) * (1#2))%Q in
  let hh := (height (visibleSize mu) * (1#2))%Q in
  [pixelPoint;
   vadd pixelPoint (v2 (- hw) hh);
   vadd pixelPoint (v2 (- hw) (- hh));
   vadd pixelPoint (v2 hw hh);
   vadd pixelPoint (v2 hw (- hh))].

(** [MapProxy.setCurCenterPoint]: the returned boolean, the proxy after the
    call and the events emitted, in order. *)
Definition setCurCenterPoint (st : MapProxy) (point : Cell) (pixelPoint : Vec2)
    : bool * MapProxy * list LogicEvent :=
  let changed :=
    match _curCenterPoint st with
    | None => true
    | Some c => negb (cx c =? cx point) || negb (cy c =? cy point)
    end in
  if changed then
    let areaPoint := getAreaPointByCellPoint mu (cx point) (cy point) in
    let areaId := getIdByAreaPoint mu (cx areaPoint) (cy areaPoint) in
    let cur := _curCenterAreaId st in
    if (cur =? -1) || negb (cur =? areaId) then
      let (areaData, datas1) := getMapAreaData (_mapAreaDatas st) areaId in
      let newIds := get9GridVaildAreaIds mu (mad_id areaData) in
      (* [||] short-circuits: the previous descriptor is only fetched
         (and possibly created) when a previous center area exists *)
      let (full, datas2) :=
        if cur =? -1 then (true, datas1)
        else let (old, d) := getMapAreaData datas1 cur in
             (negb (fuzzyEquals old (Some areaData) 3), d) in
      let '(addIds, removeIds, firstAreaIds) :=
        if full then
          (newIds, @nil Z,
           Some (getVaildAreaIdsByPixelPoints mu (cornerPoints pixelPoint)))
        else
          let oldIds := get9GridVaildAreaIds mu cur in
          let addIds := List.filter (fun i => indexOf oldIds i =? -1) newIds in
          let removeIds := List.filter (fun i => indexOf newIds i =? -1) oldIds in
          (* [if (addIds.indexOf(areaData.id))]: a number is truthy iff it
             is not 0 *)
          (addIds, removeIds,
           if negb (indexOf addIds (mad_id areaData) =? 0)
           then Some [mad_id areaData] else None) in
      let otherAreaIds :=
        match firstAreaIds with
        | Some f => if (0 <? length f)%nat
                    then List.filter (fun i => indexOf f i =? -1) addIds else addIds
        | None => addIds
        end in
      let qryIndexs :=
        match firstAreaIds with
        | Some f => if (0 <? length f)%nat then f ++ otherAreaIds else otherAreaIds
        | None => otherAreaIds
        end in
      (true,
       {| _curCenterPoint := Some point; _curCenterAreaId := areaId;
          _mapAreaDatas := datas2; qryAreaIds := qryAreaIds st ++ qryIndexs |},
       [mapEenterChange point; mapShowAreaChange point areaId addIds removeIds])
    else
      (true,
       {| _curCenterPoint := Some point; _curCenterAreaId := cur;
          _mapAreaDatas := _mapAreaDatas st; qryAreaIds := qryAreaIds st |},
       [mapEenterChange point])
  else (false, st, []).

End MapProxyOps.

(** ** Store invariant

    A descriptor stored at [id] is the one [getMapAreaData] builds for
    [id], except for [qryStartTime], which [checkAndUpdateQryTime] may
    have changed since. *)
Definition area_wf (mu : MapUtil) (id : Z) (d : MapAreaData) : Prop :=
  let point := getAreaPointById mu id in
  let start := getStartCellPointByAreaPoint mu (cx point) (cy point) in
  mad_id d = id /\ mad_x d = cx point /\ mad_y d = cy point /\
  startCellX d = cx start /\ startCellY d = cy start /\
  endCellX d = cx start + cwidth (_areaCellSize mu) /\
  endCellY d = cy start + cwidth (_areaCellSize mu) /\
  len d = cwidth (_areaCellSize mu).

Definition store_wf (mu : MapUtil) (datas : gmap Z MapAreaData) : Prop :=
  map_Forall (area_wf mu) datas.

(** [d'] agrees with [d] on every field but [qryStartTime]. *)
Definition same_but_qry (d d' : MapAreaData) : Prop :=
  mad_id d' = mad_id d /\ mad_x d' = mad_x d /\ mad_y d' = mad_y d /\
  startCellX d' = startCellX d /\ startCellY d' = startCellY d /\
  endCellX d' = endCellX d /\ endCellY d' = endCellY d /\ len d' = len d.

(** ** Example configuration

    Tiles 256x128, a 20x20 map of 5120x2560 pixels anchored at its center,
    and a 1280x640 view: the area side is 8 and the area grid 3x3. *)
Definition exampleMap : MapUtil :=
  initMapConfig 5120 2560 (1#2) (1#2) (size 256 128) (csize 20 20) (size 1280 640).

(** The proxy after centering the example map on cell (8,8), in area 4. *)
Definition panStart : MapProxy :=
  snd (fst (setCurCenterPoint exampleMap emptyProxy (cell 8 8)
                              (mapCellToPixelPoint exampleMap (cell 8 8)))).

(** The same view over a 5x5 map, where the map height caps the area side. *)
Definition smallMap : MapUtil :=
  initMapConfig 1280 640 (1#2) (1#2) (size 256 128) (csize 5 5) (size 1280 640).

(** The same view over an 80x80 map: the area side is 8 and the area grid
    10x10, wide enough for a jump of more than 3 areas. *)
Definition largeMap : MapUtil :=
  initMapConfig 20480 10240 (1#2) (1#2) (size 256 128) (csize 80 80) (size 1280 640).

(** The proxy after centering the large map on cell (4,4), in area 0. *)
Definition jumpStart : MapProxy :=
  snd (fst (setCurCenterPoint largeMap emptyProxy (cell 4 4) (v2 0 0))).

(** ** Map resources and position tags (MapProxy) *)

Definition SYS_CITY : Z := 51.

Record MapResData := {
  res_id : Z;
  res_type : Z;
  res_level : Z;
  res_x : Z;
  res_y : Z
}.

(** The loop of [initMapResConfig] from index [i] on, over the entries
    [list[i]] of the server data read as their pairs [(list[i][0],
    list[i][1])] (type, level): all resource points, and the system cities
    among them, each in index order. *)
Fixpoint initMapResConfig_from (w i : Z) (list : list (Z * Z))
    : Datatypes.list MapResData * Datatypes.list MapResData :=
  match list with
  | [] => ([], [])
  | (t, lv) :: rest =>
      let data := {| res_id := i; res_type := t; res_level := lv;
                     res_x := Z.rem i w; res_y := i / w |} in
      let (resDatas, sysCities) := initMapResConfig_from w (i + 1) rest in
      (data :: resDatas, if t =? SYS_CITY then data :: sysCities else sysCities)
  end.

(** [initMapResConfig]: [_mapResDatas] and [_mapSysCityResDatas]. *)
Definition initMapResConfig (w : Z) (list : list (Z * Z))
    : Datatypes.list MapResData * Datatypes.list MapResData :=
  initMapResConfig_from w 0 list.

(** [getSysCityResData]: the first system city whose influence square
    (of radius 3, 2 or 1 by its level, as in [sysCityDis]) holds [(x, y)],
    and [null] when there is none. *)
Fixpoint getSysCityResData (sysCities : list MapResData) (x y : Z) : option MapResData :=
  match sysCities with
  | [] => None
  | resData :: rest =>
      let dis := sysCityDis (res_level resData) in
      if (Z.abs (x - res_x resData) <=? dis) && (Z.abs (y - res_y resData) <=? dis)
      then Some resData
      else getSysCityResData rest x y
  end.

(** City [d] covers the cell [(x, y)]: the test of [getSysCityResData]. *)
Definition sysCityCovers (d : MapResData) (x y : Z) : Prop :=
  Z.abs (x - res_x d) <= sysCityDis (res_level d) /\
  Z.abs (y - res_y d) <= sysCityDis (res_level d).

Record MapTagPos := {
  tag_x : Z;
  tag_y : Z;
  tag_name : String.string
}.

(** [removeMapPosTag]: keeps the tags with [tag.x != x || y != tag.y]. *)
Definition removeMapPosTag (tags : list MapTagPos) (x y : Z) : list MapTagPos :=
  List.filter (fun tag => negb (tag_x tag =? x) || negb (y =? tag_y tag)) tags.

(** [addMapPosTag]: the [forEach] clears [ok] on a tag at [(x, y)]; the
    new tag is pushed only if [ok] is still set. *)
Definition addMapPosTag (tags : list MapTagPos) (x y : Z) (name : String.string)
    : list MapTagPos :=
  let tag := {| tag_x := x; tag_y := y; tag_name := name |} in
  let ok := fold_left (fun ok tag =>
                if (tag_x tag =? x) && (tag_y tag =? y) then false else ok) tags true in
  if ok then tags ++ [tag] else tags.

(** [isPosTag]: the loop breaks on the first tag at [(x, y)]. *)
Fixpoint isPosTag (tags : list MapTagPos) (x y : Z) : bool :=
  match tags with
  | [] => false
  | tag :: rest => if (tag_x tag =? x) && (tag_y tag =? y) then true else isPosTag rest x y
  end.

Definition tag_pos (t : MapTagPos) : Z * Z := (tag_x t, tag_y t).

(** ** MapBaseLayerLogic

    Nodes are named by numbers.  [_itemMap] maps an area index to the
    JavaScript [Map] of its items, an association list in insertion order;
    [_itemPool] is the [NodePool], whose [put] pushes and whose [get] pops
    the last node; [instantiate] makes the node [nextNode].  [setItemData]
    only touches the node's view, not this state.  A method that reads a
    missing area's [Map] ([list.has] on [undefined]) throws: [None]. *)

Definition Node := nat.

Record Layer := {
  _itemMap : gmap Z (list (Z * Node));
  _itemPool : list Node;
  nextNode : Node
}.

Fixpoint map_get (l : list (Z * Node)) (id : Z) : option Node :=
  match l with
  | [] => None
  | (k, n) :: rest => if k =? id then Some n else map_get rest id
  end.

Definition map_delete (l : list (Z * Node)) (id : Z) : list (Z * Node) :=
  List.filter (fun kn => negb (fst kn =? id)) l.

(** [getItem]: [Some None] is [null]. *)
Definition getItem (ly : Layer) (areaIndex id : Z) : option (option Node) :=
  match _itemMap ly !! areaIndex with
  | None => None
  | Some list => Some (map_get list id)
  end.

(** [createItem]: the node and the pool and counter after the call. *)
Definition createItem (ly : Layer) : Node * Layer :=
  match rev (_itemPool ly) with
  | n :: rest => (n, {| _itemMap := _itemMap ly; _itemPool := rev rest;
                        nextNode := nextNode ly |})
  | [] => (nextNode ly, {| _itemMap := _itemMap ly; _itemPool := _itemPool ly;
                           nextNode := S (nextNode ly) |})
  end.

(** [addItem areaIndex data] with [getIdByData(data) = id]: [None] is [null];
    a missing item is created and set, which appends it to the area's
    [Map] since its key is absent. *)
Definition addItem (ly : Layer) (areaIndex id : Z) : option Node * Layer :=
  match _itemMap ly !! areaIndex with
  | None => (None, ly)
  | Some list =>
      match map_get list id with
      | Some item => (Some item, ly)
      | None =>
          let (item, ly1) := createItem ly in
          (Some item, {| _itemMap := <[areaIndex := list ++ [(id, item)]]> (_itemMap ly1);
                         _itemPool := _itemPool ly1; nextNode := nextNode ly1 |})
      end
  end.

(** [removeItem]: [None] when it throws. *)
Definition removeItem (ly : Layer) (areaIndex id : Z) : option (bool * Layer) :=
  match _itemMap ly !! areaIndex with
  | None => None
  | Some list =>
      match map_get list id with
      | Some item =>
          Some (true, {| _itemMap := <[areaIndex := map_delete list id]> (_itemMap ly);
                         _itemPool := _itemPool ly ++ [item]; nextNode := nextNode ly |})
      | None => Some (false, ly)
      end
  end.

Definition removeArea (ly : Layer) (areaIndex : Z) : Layer :=
  match _itemMap ly !! areaIndex with
  | None => ly
  | Some list =>
      {| _itemMap := delete areaIndex (_itemMap ly);
         _itemPool := _itemPool ly ++ map snd list; nextNode := nextNode ly |}
  end.

Definition addArea (ly : Layer) (areaIndex : Z) : Layer :=
  match _itemMap ly !! areaIndex with
  | None => {| _itemMap := <[areaIndex := []]> (_itemMap ly);
               _itemPool := _itemPool ly; nextNode := nextNode ly |}
  | Some _ => ly
  end.

Definition udpateShowAreas (ly : Layer) (addIndexs removeIndexs : list Z) : Layer :=
  fold_left addArea addIndexs (fold_left removeArea removeIndexs ly).

(** A layer showing area 5 with one item, of id 7, on node 0. *)
Definition exampleLayer : Layer :=
  {| _itemMap := <[5 := [(7, 0%nat)]]> ∅; _itemPool := []; nextNode := 1%nat |}.

(** ** MapLogic *)

(** [MapLogic.toCameraPoint], with the fields [_maxMapX] and [_maxMapY]
    passed in. *)
Definition toCameraPoint (mu : MapUtil) (maxMapX maxMapY : Q) (point : Cell) : Vec2 :=
  let pixelPoint := mapCellToPixelPoint mu point in
  v2 (Qmin maxMapX (Qmax (- maxMapX) (vx pixelPoint)))
     (Qmin maxMapY (Qmax (- maxMapY) (vy pixelPoint))).

(** ** Arithmetic on floors and ceilings *)

Lemma Qfloor_unique (q : Q) (z : Z) :
  (inject_Z z <= q)%Q -> (q < inject_Z (z + 1))%Q -> Qfloor q = z.
Proof.
  intros Hl Hu.
  pose proof (Qfloor_le q) as Fl. pose proof (Qlt_floor q) as Fu.
  assert (A : (inject_Z (Qfloor q) < inject_Z (z + 1))%Q)
    by (eapply Qle_lt_trans; eauto).
  assert (B : (inject_Z z < inject_Z (Qfloor q + 1))%Q)
    by (eapply Qle_lt_trans; eauto).
  rewrite <- Zlt_Qlt in A, B. lia.
Qed.

Lemma Qfloor_half (z : Z) : Qfloor (inject_Z z + (1#2)) = z.
Proof.
  apply Qfloor_unique; rewrite ?inject_Z_plus;
    change (inject_Z 1) with 1%Q; lra.
Qed.

(** Side conditions [~ t == 0] of [field] for a positive [t]. *)
Ltac nonzero :=
  repeat split;
  match goal with
  | |- ~ (?t == 0)%Q => let Hz := fresh "Hz" in intro Hz; rewrite Hz in *; lra
  end.

(** Horizontal error of the isometric round trip, in pixels. *)
Lemma iso_dx_bound (W tw th px py : Q) :
  (0 < tw)%Q -> (0 < th)%Q ->
  (Qabs (W * tw * (1#2)
         - inject_Z (Qfloor ((3#2) * W - px / tw - py / th)
                     - Qfloor ((1#2) * W + px / tw - py / th)) * tw * (1#2)
         - px) < tw)%Q.
Proof.
  intros Htw Hth.
  set (u := ((1#2) * W + px / tw - py / th)%Q).
  set (v := ((3#2) * W - px / tw - py / th)%Q).
  pose proof (Qfloor_le u) as U1. pose proof (Qlt_floor u) as U2.
  pose proof (Qfloor_le v) as V1. pose proof (Qlt_floor v) as V2.
  rewrite inject_Z_plus in U2, V2.
  unfold Z.sub. rewrite inject_Z_plus, inject_Z_opp.
  set (X := inject_Z (Qfloor u)) in *. set (Y := inject_Z (Qfloor v)) in *.
  assert (E : (W * tw * (1#2) - (Y + - X) * tw * (1#2) - px
               == tw * (1#2) * ((v - Y) - (u - X)))%Q).
  { unfold u, v. field. nonzero. }
  rewrite E. apply Qabs_Qlt_condition. change (inject_Z 1) with 1%Q in U2, V2.
  clearbody u v X Y. split; nra.
Qed.

(** Vertical error of the isometric round trip, in pixels. *)
Lemma iso_dy_bound (W tw th px py : Q) :
  (0 < tw)%Q -> (0 < th)%Q ->
  (Qabs (W * th - th * (1#2)
         - inject_Z (Qfloor ((1#2) * W + px / tw - py / th)
                     + Qfloor ((3#2) * W - px / tw - py / th)) * th * (1#2)
         - py) <= th)%Q.
Proof.
  intros Htw Hth.
  set (u := ((1#2) * W + px / tw - py / th)%Q).
  set (v := ((3#2) * W - px / tw - py / th)%Q).
  pose proof (Qfloor_le u) as U1. pose proof (Qlt_floor u) as U2.
  pose proof (Qfloor_le v) as V1. pose proof (Qlt_floor v) as V2.
  rewrite inject_Z_plus in U2, V2 |- *.
  set (X := inject_Z (Qfloor u)) in *. set (Y := inject_Z (Qfloor v)) in *.
  assert (E : (W * th - th * (1#2) - (X + Y) * th * (1#2) - py
               == th * (1#2) * ((u - X) + (v - Y) - 1))%Q).
  { unfold u, v. field. nonzero. }
  rewrite E. apply Qabs_Qle_condition. change (inject_Z 1) with 1%Q in U2, V2.
  clearbody u v X Y. split; nra.
Qed.

(** ** Area side chosen by [initMapConfig] *)

(** C3: [initMapConfig] takes the area side as
    [Math.min(Math.ceil(vh / th / 2) * 2 + 2, mapHeight)], square.  When an
    odd map height caps it, the side is that odd height, although the even
    value one less also fits under the map height. *)
Theorem initMapConfig_odd_cap (uit_w uit_h anchorX anchorY : Q) (tile : Size)
    (msize : CSize) (vsize : Size) :
  Z.odd (cheight msize) = true ->
  cheight msize < Qceiling (height vsize / height tile / 2) * 2 + 2 ->
  let mu := initMapConfig uit_w uit_h anchorX anchorY tile msize vsize in
  cwidth (_areaCellSize mu) =
    Z.min (Qceiling (height vsize / height tile / 2) * 2 + 2) (cheight msize) /\
  cheight (_areaCellSize mu) = cwidth (_areaCellSize mu) /\
  cwidth (_areaCellSize mu) = cheight msize /\
  Z.even (cwidth (_areaCellSize mu)) = false /\
  Z.even (cheight msize - 1) = true /\ cheight msize - 1 <= cheight msize.
Proof.
  intros Hodd Hcap. cbn [initMapConfig _areaCellSize cwidth cheight].
  split; [reflexivity |]. split; [reflexivity |].
  rewrite Z.min_r by lia.
  split; [reflexivity |]. split; [| split; [| lia]].
  - rewrite <- Z.negb_odd, Hodd. reflexivity.
  - rewrite Z.sub_1_r, Z.even_pred. exact Hodd.
Qed.

(** ** Round trips of the isometric projection *)

(** C6: on a square map, converting a cell to map pixels and back gives the
    same cell. *)
Theorem mapPixelToCellPoint_mapCellToPixelPoint (uit_w uit_h anchorX anchorY : Q)
    (tile : Size) (msize : CSize) (vsize : Size) (c : Cell) :
  cwidth msize = cheight msize ->
  (0 < width tile)%Q -> (0 < height tile)%Q ->
  let mu := initMapConfig uit_w uit_h anchorX anchorY tile msize vsize in
  mapPixelToCellPoint mu (mapCellToPixelPoint mu c) = c.
Proof.
  intros Hsq Htw Hth. destruct msize as [mw mh]; simpl in Hsq; subst mw.
  destruct c as [x y]. destruct tile as [tw th]; simpl in Htw, Hth.
  intros mu; subst mu.
  unfold mapPixelToCellPoint, mapCellToPixelPoint, worldPixelToMapCellPoint,
    mapCellToWorldPixelPoint, vadd, vsub; cbn [initMapConfig _mapSize _tileSize _zeroPixelPoint _mapOffsetPoint
    vx vy cx cy width height cwidth cheight].
  unfold Z.sub; rewrite !inject_Z_plus, !inject_Z_opp.
  f_equal.
  - transitivity (Qfloor (inject_Z x + (1#2))); [| apply Qfloor_half].
    apply Qfloor_comp. field. nonzero.
  - transitivity (Qfloor (inject_Z y + (1#2))); [| apply Qfloor_half].
    apply Qfloor_comp. field. nonzero.
Qed.

(** C7: on a square map, converting a world pixel point to its cell and the
    cell back to world pixels lands within one tile of the point. *)
Theorem mapCellToWorldPixelPoint_worldPixelToMapCellPoint
    (uit_w uit_h anchorX anchorY : Q) (tile : Size) (msize : CSize)
    (vsize : Size) (p : Vec2) :
  cwidth msize = cheight msize ->
  (0 < width tile)%Q -> (0 < height tile)%Q ->
  let mu := initMapConfig uit_w uit_h anchorX anchorY tile msize vsize in
  let q := mapCellToWorldPixelPoint mu (worldPixelToMapCellPoint mu p) in
  (Qabs (vx q - vx p) < width tile)%Q /\ (Qabs (vy q - vy p) <= height tile)%Q.
Proof.
  intros Hsq Htw Hth. destruct msize as [mw mh]; simpl in Hsq; subst mw.
  destruct p as [px py]. destruct tile as [tw th]; simpl in Htw, Hth.
  intros mu q; subst mu q.
  unfold mapCellToWorldPixelPoint, worldPixelToMapCellPoint; cbn [initMapConfig _mapSize _tileSize _zeroPixelPoint _mapOffsetPoint
    vx vy cx cy width height cwidth cheight].
  split; [apply iso_dx_bound | apply iso_dy_bound]; assumption.
Qed.

(** ** [indexOf] as list membership *)

Lemma indexOf_from_absent (l : list Z) (v i : Z) :
  0 <= i -> indexOf_from l v i = -1 <-> v ∉ l.
Proof.
  revert i. induction l as [| a l IH]; intros i Hi; simpl.
  - split; [intros _; apply not_elem_of_nil | reflexivity].
  - rewrite not_elem_of_cons. destruct (Z.eqb_spec a v) as [-> | Hne].
    + split; [lia | intros [H _]; congruence].
    + rewrite (IH (i + 1)) by lia. split; [intros H; split; congruence | tauto].
Qed.

Lemma indexOf_absent (l : list Z) (v : Z) : indexOf l v = -1 <-> v ∉ l.
Proof. apply indexOf_from_absent. lia. Qed.

(** The [indexOf(..) == -1] loops of [setCurCenterPoint] compute list
    differences. *)
Lemma filter_indexOf_difference (k l : list Z) :
  List.filter (fun i => indexOf l i =? -1) k = list_difference k l.
Proof.
  induction k as [| a k IH]; simpl; [reflexivity |].
  destruct (Z.eqb_spec (indexOf l a) (-1)) as [H | H];
    destruct (decide_rel elem_of a l) as [Hin | Hin].
  - apply indexOf_absent in H. contradiction.
  - rewrite IH. reflexivity.
  - exact IH.
  - exfalso. apply H, indexOf_absent, Hin.
Qed.

(** ** [getMapAreaData] *)

Section AreaStore.

Variable mu : MapUtil.

Lemma store_wf_empty : store_wf mu ∅.
Proof. apply map_Forall_empty. Qed.

Lemma getMapAreaData_spec (datas : gmap Z MapAreaData) (id : Z) :
  store_wf mu datas ->
  let (d, datas') := getMapAreaData mu datas id in
  area_wf mu id d /\ datas' !! id = Some d /\ store_wf mu datas' /\
  (forall j e, datas !! j = Some e -> datas' !! j = Some e) /\
  (forall j, j <> id -> datas' !! j = datas !! j).
Proof.
  intros Hwf. unfold getMapAreaData.
  destruct (datas !! id) as [d |] eqn:E.
  - split; [exact (Hwf id d E) |]. split; [exact E |].
    split; [exact Hwf |]. split; [tauto | reflexivity].
  - set (data := {| mad_id := id; mad_x := _ |}).
    assert (Hd : area_wf mu id data)
      by (unfold area_wf, data; cbn; repeat split).
    split; [exact Hd |]. split; [apply lookup_insert_eq |].
    split; [apply map_Forall_insert_2; assumption |]. split.
    + intros j e Hj. rewrite lookup_insert_ne; [exact Hj | congruence].
    + intros j Hj. apply lookup_insert_ne. congruence.
Qed.

(** The descriptor returned only depends on what is stored at [id]. *)
Lemma getMapAreaData_fst (d1 d2 : gmap Z MapAreaData) (id : Z) :
  d1 !! id = d2 !! id ->
  fst (getMapAreaData mu d1 id) = fst (getMapAreaData mu d2 id).
Proof. intros E. unfold getMapAreaData. rewrite E. destruct (d2 !! id); reflexivity. Qed.

End AreaStore.

(** ** Descriptors *)

Section Descriptors.

Variable mu : MapUtil.

(** C10: [getMapAreaData] returns the descriptor of [id] with its area
    coordinates, its cell rectangle and its side, and a second call returns
    the same descriptor; nothing stored before is changed or removed. *)
Theorem getMapAreaData_descriptor (datas : gmap Z MapAreaData) (id : Z) :
  store_wf mu datas ->
  cwidth (_areaCellSize mu) = cheight (_areaCellSize mu) ->
  let side := cwidth (_areaCellSize mu) in
  let (d, datas') := getMapAreaData mu datas id in
  mad_id d = id /\
  mad_x d = cx (getAreaPointById mu id) /\ mad_y d = cy (getAreaPointById mu id) /\
  startCellX d = mad_x d * side /\ startCellY d = mad_y d * side /\
  endCellX d = startCellX d + side /\ endCellY d = startCellY d + side /\
  len d = side /\
  getMapAreaData mu datas' id = (d, datas') /\
  (forall j e, datas !! j = Some e -> datas' !! j = Some e).
Proof.
  intros Hwf Hsq side.
  pose proof (getMapAreaData_spec mu datas id Hwf) as Hs.
  destruct (getMapAreaData mu datas id) as [d datas'].
  destruct Hs as [(Hid & Hx & Hy & Hsx & Hsy & Hex & Hey & Hl) [Hin [_ [Hkeep _]]]].
  unfold getStartCellPointByAreaPoint in Hsx, Hsy, Hex, Hey.
  cbn [cx cy] in Hsx, Hsy, Hex, Hey. subst side.
  split; [exact Hid |]. split; [exact Hx |]. split; [exact Hy |].
  split; [rewrite Hsx, Hx; reflexivity |].
  split; [rewrite Hsy, Hy, Hsq; reflexivity |].
  split; [rewrite Hex, Hsx; reflexivity |].
  split; [rewrite Hey, Hsy; reflexivity |].
  split; [exact Hl |].
  split; [unfold getMapAreaData; rewrite Hin; reflexivity | exact Hkeep].
Qed.

End Descriptors.

(** C5, as stated, fails: the window is measured from the last permitted
    query, so a rejected call does not restart it.  A descriptor queried
    at 100000 rejects a call at 108000 and accepts one at 113000, 5 seconds
    later. *)
Lemma C5_counterexample :
  let d0 := fst (getMapAreaData exampleMap ∅ 4) in
  let d1 := snd (checkAndUpdateQryTime d0 100000) in
  let (r1, d2) := checkAndUpdateQryTime d1 108000 in
  r1 = false /\ fst (checkAndUpdateQryTime d2 113000) = true.
Proof. vm_compute. split; reflexivity. Qed.

(** C5 (amended): the throttle permits a query exactly when 10000 ms have
    passed since the stored timestamp, and then stores the call time;
    otherwise the descriptor is untouched.  After a permitted call, a call
    5 seconds later is rejected and one 11 seconds later is permitted. *)
Theorem checkAndUpdateQryTime_spec (d : MapAreaData) (nowTime : Z) :
  let (ok, d') := checkAndUpdateQryTime d nowTime in
  (ok = true <-> MAX_TIME <= nowTime - qryStartTime d) /\
  (ok = true -> qryStartTime d' = nowTime /\ same_but_qry d d') /\
  (ok = false -> d' = d) /\
  (ok = true ->
   fst (checkAndUpdateQryTime d' (nowTime + 5000)) = false /\
   fst (checkAndUpdateQryTime d' (nowTime + 11000)) = true).
Proof.
  unfold checkAndUpdateQryTime at 1.
  destruct (Z.leb_spec MAX_TIME (nowTime - qryStartTime d)) as [H | H].
  - split; [split; [intros _; exact H | reflexivity] |].
    split; [intros _; split; [reflexivity | repeat split] |].
    split; [discriminate |]. intros _.
    unfold checkAndUpdateQryTime, MAX_TIME; cbn.
    split; [replace (nowTime + 5000 - nowTime) with 5000 by lia
           | replace (nowTime + 11000 - nowTime) with 11000 by lia]; reflexivity.
  - split; [split; [discriminate | lia] |].
    split; [discriminate |]. split; [reflexivity | discriminate].
Qed.

(** ** [setCurCenterPoint] *)

Section CenterPoint.

Variable mu : MapUtil.

Lemma center_changed (st : MapProxy) (point : Cell) :
  _curCenterPoint st <> Some point ->
  match _curCenterPoint st with
  | None => true
  | Some c => negb (cx c =? cx point) || negb (cy c =? cy point)
  end = true.
Proof.
  intros Hne. destruct (_curCenterPoint st) as [c |]; [| reflexivity].
  destruct (Z.eqb_spec (cx c) (cx point)), (Z.eqb_spec (cy c) (cy point));
    try reflexivity.
  exfalso. apply Hne. destruct c, point; cbn in *; subst; reflexivity.
Qed.

(** After any call the stored center is the cell passed in. *)
Lemma setCurCenterPoint_stores (st : MapProxy) (point : Cell) (pix : Vec2) :
  exists c, _curCenterPoint (snd (fst (setCurCenterPoint mu st point pix))) = Some c
            /\ cx c = cx point /\ cy c = cy point.
Proof.
  unfold setCurCenterPoint.
  destruct (_curCenterPoint st) as [c |] eqn:E.
  - destruct (negb (cx c =? cx point) || negb (cy c =? cy point)) eqn:Ch.
    + repeat case_match; cbn; eauto.
    + cbn. exists c. rewrite E. apply orb_false_iff in Ch as [H1 H2].
      apply negb_false_iff, Z.eqb_eq in H1, H2. auto.
  - repeat case_match; cbn; eauto.
Qed.

(** [setCurCenterPoint] keeps the store invariant. *)
Lemma setCurCenterPoint_store_wf (st : MapProxy) (point : Cell) (pix : Vec2) :
  store_wf mu (_mapAreaDatas st) ->
  store_wf mu (_mapAreaDatas (snd (fst (setCurCenterPoint mu st point pix)))).
Proof.
  intros Hwf. unfold setCurCenterPoint. cbv zeta.
  destruct (match _curCenterPoint st with
            | Some c => _ | None => true end); [| exact Hwf].
  destruct (_ || _); [| exact Hwf].
  pose proof (getMapAreaData_spec mu (_mapAreaDatas st)
                (getIdByAreaPoint mu (cx (getAreaPointByCellPoint mu (cx point) (cy point)))
                   (cy (getAreaPointByCellPoint mu (cx point) (cy point)))) Hwf) as S1.
  destruct (getMapAreaData mu (_mapAreaDatas st) _) as [nd d1].
  destruct S1 as (_ & _ & Hw1 & _).
  destruct (_curCenterAreaId st =? -1); [cbn; exact Hw1 |].
  pose proof (getMapAreaData_spec mu d1 (_curCenterAreaId st) Hw1) as S2.
  destruct (getMapAreaData mu d1 (_curCenterAreaId st)) as [od d2].
  destruct S2 as (_ & _ & Hw2 & _).
  destruct (negb (fuzzyEquals od (Some nd) 3)); cbn; exact Hw2.
Qed.

(** C8: a call with the stored center cell returns false and changes
    nothing; hence repeating a call is a no-op. *)
Theorem setCurCenterPoint_same_cell (st : MapProxy) (point : Cell) (pix : Vec2) :
  (forall c, _curCenterPoint st = Some c -> cx c = cx point -> cy c = cy point ->
             setCurCenterPoint mu st point pix = (false, st, [])) /\
  (let st' := snd (fst (setCurCenterPoint mu st point pix)) in
   forall pix', setCurCenterPoint mu st' point pix' = (false, st', [])).
Proof.
  assert (Same : forall s c p, _curCenterPoint s = Some c ->
            cx c = cx point -> cy c = cy point ->
            setCurCenterPoint mu s point p = (false, s, [])).
  { intros s c p E Hx Hy. unfold setCurCenterPoint. rewrite E, Hx, Hy, !Z.eqb_refl.
    reflexivity. }
  split; [intros c; apply Same |].
  intros st' pix'. destruct (setCurCenterPoint_stores st point pix) as (c & E & Hx & Hy).
  exact (Same st' c pix' E Hx Hy).
Qed.

(** C9: a new cell in the current center area only moves the center: the
    area id, the descriptors and the query queue stay, and only the
    center-changed event is sent. *)
Theorem setCurCenterPoint_same_area (st : MapProxy) (point : Cell) (pix : Vec2) :
  _curCenterPoint st <> Some point ->
  _curCenterAreaId st <> -1 ->
  getAreaIdByCellPoint mu (cx point) (cy point) = _curCenterAreaId st ->
  setCurCenterPoint mu st point pix =
    (true,
     {| _curCenterPoint := Some point; _curCenterAreaId := _curCenterAreaId st;
        _mapAreaDatas := _mapAreaDatas st; qryAreaIds := qryAreaIds st |},
     [mapEenterChange point]).
Proof.
  intros Hne Hset Harea. unfold setCurCenterPoint.
  rewrite (center_changed st point Hne).
  unfold getAreaIdByCellPoint in Harea. rewrite Harea.
  apply Z.eqb_neq in Hset. rewrite Hset, Z.eqb_refl. reflexivity.
Qed.

(** C4: on a continuous pan (the previous center area is set, differs from
    the new one, and their descriptors are within 3 areas on each axis) the
    area event carries the new 9-grid minus the old one and the old 9-grid
    minus the new one, each in its own order. *)
Theorem setCurCenterPoint_pan (st : MapProxy) (point : Cell) (pix : Vec2) (areaId : Z) :
  store_wf mu (_mapAreaDatas st) ->
  _curCenterPoint st <> Some point ->
  getAreaIdByCellPoint mu (cx point) (cy point) = areaId ->
  _curCenterAreaId st <> -1 ->
  _curCenterAreaId st <> areaId ->
  Z.abs (mad_x (fst (getMapAreaData mu (_mapAreaDatas st) areaId))
         - mad_x (fst (getMapAreaData mu (_mapAreaDatas st) (_curCenterAreaId st)))) <= 3 ->
  Z.abs (mad_y (fst (getMapAreaData mu (_mapAreaDatas st) areaId))
         - mad_y (fst (getMapAreaData mu (_mapAreaDatas st) (_curCenterAreaId st)))) <= 3 ->
  exists st',
    setCurCenterPoint mu st point pix =
      (true, st',
       [mapEenterChange point;
        mapShowAreaChange point areaId
          (list_difference (get9GridVaildAreaIds mu areaId)
                           (get9GridVaildAreaIds mu (_curCenterAreaId st)))
          (list_difference (get9GridVaildAreaIds mu (_curCenterAreaId st))
                           (get9GridVaildAreaIds mu areaId))]).
Proof.
  intros Hwf Hne Harea Hset Hdiff Hx Hy.
  unfold setCurCenterPoint. rewrite (center_changed st point Hne).
  unfold getAreaIdByCellPoint in Harea. cbv zeta. rewrite Harea.
  assert (E1 : (_curCenterAreaId st =? -1) = false) by (apply Z.eqb_neq; exact Hset).
  assert (E2 : (_curCenterAreaId st =? areaId) = false) by (apply Z.eqb_neq; exact Hdiff).
  rewrite E1, E2. cbn [orb negb].
  pose proof (getMapAreaData_spec mu (_mapAreaDatas st) areaId Hwf) as S1.
  destruct (getMapAreaData mu (_mapAreaDatas st) areaId) as [nd d1] eqn:G1.
  destruct S1 as [[Hid _] [_ [_ [_ Hother]]]].
  rewrite Hid.
  assert (Hod : fst (getMapAreaData mu d1 (_curCenterAreaId st))
                = fst (getMapAreaData mu (_mapAreaDatas st) (_curCenterAreaId st)))
    by (apply getMapAreaData_fst, Hother, Hdiff).
  destruct (getMapAreaData mu d1 (_curCenterAreaId st)) as [od d2] eqn:G2.
  cbn [fst] in Hx, Hy, Hod. rewrite <- Hod in Hx, Hy.
  assert (Hfz : fuzzyEquals od (Some nd) 3 = true).
  { unfold fuzzyEquals.
    apply Z.abs_le in Hx, Hy.
    repeat rewrite andb_true_intro; try reflexivity;
      repeat split; apply Z.leb_le; lia. }
  rewrite Hfz. cbn [negb].
  rewrite !filter_indexOf_difference.
  eexists. reflexivity.
Qed.

End CenterPoint.

(** ** The example configuration *)

(** C2: the first call on cell (0,0) of the example configuration (3x3
    area grid), from any pixel point, adds the 5 areas [[2; 3; 4; 0; 1]].
    Area 2 is the id [0 + width - 1] that the raw 9-grid gives to the
    off-map neighbour (-1,1); it passes the id range check, but it is area
    (2,0), two areas away, while the on-map areas of the 3x3 block around
    (0,0) are only [[3; 4; 0; 1]]. *)
Theorem setCurCenterPoint_first_call_wraps (pix : Vec2) :
  snd (setCurCenterPoint exampleMap emptyProxy (cell 0 0) pix) =
    [mapEenterChange (cell 0 0);
     mapShowAreaChange (cell 0 0) 0 [2; 3; 4; 0; 1] []] /\
  get9GridVaildAreaIds exampleMap 0 = [2; 3; 4; 0; 1] /\
  getIdByAreaPoint exampleMap (-1) 1 = 2 /\
  isVaildAreaPoint exampleMap (cell (-1) 1) = false /\
  getAreaPointById exampleMap 2 = cell 2 0 /\
  map (fun p => getIdByAreaPoint exampleMap (cx p) (cy p))
    (List.filter (isVaildAreaPoint exampleMap)
       [cell (-1) 1; cell 0 1; cell 1 1; cell (-1) 0; cell 0 0; cell 1 0;
        cell (-1) (-1); cell 0 (-1); cell 1 (-1)]) = [3; 4; 0; 1].
Proof. vm_compute. repeat split. Qed.

(** C1: the pan from cell (8,8) (area 4) to cell (8,16) (area 7, the area
    above it) adds no area, since 7 is in the old 9-grid; yet [indexOf]
    returns -1, which is truthy, so 7 is queued as a priority area. *)
Theorem setCurCenterPoint_pan_queues_center :
  let r := setCurCenterPoint exampleMap panStart (cell 8 16)
             (mapCellToPixelPoint exampleMap (cell 8 16)) in
  _curCenterAreaId panStart = 4 /\
  snd r = [mapEenterChange (cell 8 16);
           mapShowAreaChange (cell 8 16) 7 [] [0; 1; 2]] /\
  qryAreaIds (snd (fst r)) = qryAreaIds panStart ++ [7].
Proof. vm_compute. repeat split. Qed.

(** ** Witnesses: the theorems with hypotheses at concrete inputs *)

Lemma mapPixelToCellPoint_mapCellToPixelPoint_witness :
  cwidth (csize 20 20) = cheight (csize 20 20) /\ (0 < 256)%Q /\ (0 < 128)%Q /\
  mapPixelToCellPoint exampleMap (mapCellToPixelPoint exampleMap (cell 3 7)) = cell 3 7.
Proof.
  assert (H1 : cwidth (csize 20 20) = cheight (csize 20 20)) by reflexivity.
  assert (H2 : (0 < 256)%Q) by (vm_compute; reflexivity).
  assert (H3 : (0 < 128)%Q) by (vm_compute; reflexivity).
  split; [exact H1 |]. split; [exact H2 |]. split; [exact H3 |].
  exact (mapPixelToCellPoint_mapCellToPixelPoint 5120 2560 (1#2) (1#2)
           (size 256 128) (csize 20 20) (size 1280 640) (cell 3 7) H1 H2 H3).
Defined.

Lemma mapCellToWorldPixelPoint_worldPixelToMapCellPoint_witness :
  cwidth (csize 20 20) = cheight (csize 20 20) /\ (0 < 256)%Q /\ (0 < 128)%Q /\
  (Qabs (vx (mapCellToWorldPixelPoint exampleMap
               (worldPixelToMapCellPoint exampleMap (v2 1000 (-37)))) - 1000) < 256)%Q.
Proof.
  assert (H1 : cwidth (csize 20 20) = cheight (csize 20 20)) by reflexivity.
  assert (H2 : (0 < 256)%Q) by (vm_compute; reflexivity).
  assert (H3 : (0 < 128)%Q) by (vm_compute; reflexivity).
  split; [exact H1 |]. split; [exact H2 |]. split; [exact H3 |].
  exact (proj1 (mapCellToWorldPixelPoint_worldPixelToMapCellPoint 5120 2560 (1#2) (1#2)
           (size 256 128) (csize 20 20) (size 1280 640) (v2 1000 (-37)) H1 H2 H3)).
Defined.

Lemma checkAndUpdateQryTime_spec_witness :
  let d0 := fst (getMapAreaData exampleMap ∅ 4) in
  fst (checkAndUpdateQryTime d0 1700000000000) = true /\
  fst (checkAndUpdateQryTime (snd (checkAndUpdateQryTime d0 1700000000000))
                             (1700000000000 + 5000)) = false.
Proof.
  intros d0.
  assert (H : fst (checkAndUpdateQryTime d0 1700000000000) = true)
    by (vm_compute; reflexivity).
  split; [exact H |].
  pose proof (checkAndUpdateQryTime_spec d0 1700000000000) as S.
  destruct (checkAndUpdateQryTime d0 1700000000000) as [ok d'].
  cbn [fst snd] in H |- *.
  exact (proj1 ((proj2 (proj2 (proj2 S))) H)).
Defined.

Lemma getMapAreaData_descriptor_witness :
  store_wf exampleMap ∅ /\
  cwidth (_areaCellSize exampleMap) = cheight (_areaCellSize exampleMap) /\
  mad_id (fst (getMapAreaData exampleMap ∅ 4)) = 4.
Proof.
  assert (H1 : store_wf exampleMap ∅) by apply store_wf_empty.
  assert (H2 : cwidth (_areaCellSize exampleMap) = cheight (_areaCellSize exampleMap))
    by (vm_compute; reflexivity).
  split; [exact H1 |]. split; [exact H2 |].
  pose proof (getMapAreaData_descriptor exampleMap ∅ 4 H1 H2) as S.
  destruct (getMapAreaData exampleMap ∅ 4) as [d datas'].
  exact (proj1 S).
Defined.

Lemma setCurCenterPoint_same_cell_witness :
  _curCenterPoint panStart = Some (cell 8 8) /\
  setCurCenterPoint exampleMap panStart (cell 8 8) (v2 0 0) = (false, panStart, []).
Proof.
  assert (H : _curCenterPoint panStart = Some (cell 8 8)) by (vm_compute; reflexivity).
  split; [exact H |].
  exact (proj1 (setCurCenterPoint_same_cell exampleMap panStart (cell 8 8) (v2 0 0))
           (cell 8 8) H eq_refl eq_refl).
Defined.

Lemma setCurCenterPoint_same_area_witness :
  _curCenterPoint panStart <> Some (cell 9 9) /\ _curCenterAreaId panStart <> -1 /\
  getAreaIdByCellPoint exampleMap 9 9 = _curCenterAreaId panStart /\
  fst (fst (setCurCenterPoint exampleMap panStart (cell 9 9) (v2 0 0))) = true.
Proof.
  assert (H1 : _curCenterPoint panStart <> Some (cell 9 9)) by (vm_compute; congruence).
  assert (H2 : _curCenterAreaId panStart <> -1) by (vm_compute; congruence).
  assert (H3 : getAreaIdByCellPoint exampleMap 9 9 = _curCenterAreaId panStart)
    by (vm_compute; reflexivity).
  split; [exact H1 |]. split; [exact H2 |]. split; [exact H3 |].
  rewrite (setCurCenterPoint_same_area exampleMap panStart (cell 9 9) (v2 0 0) H1 H2 H3).
  reflexivity.
Defined.

Lemma setCurCenterPoint_pan_witness :
  store_wf exampleMap (_mapAreaDatas panStart) /\
  exists st', setCurCenterPoint exampleMap panStart (cell 8 16) (v2 0 0) =
    (true, st',
     [mapEenterChange (cell 8 16);
      mapShowAreaChange (cell 8 16) 7
        (list_difference (get9GridVaildAreaIds exampleMap 7)
                         (get9GridVaildAreaIds exampleMap (_curCenterAreaId panStart)))
        (list_difference (get9GridVaildAreaIds exampleMap (_curCenterAreaId panStart))
                         (get9GridVaildAreaIds exampleMap 7))]).
Proof.
  assert (Hwf : store_wf exampleMap (_mapAreaDatas panStart))
    by (apply setCurCenterPoint_store_wf, store_wf_empty).
  split; [exact Hwf |].
  apply (setCurCenterPoint_pan exampleMap panStart (cell 8 16) (v2 0 0) 7 Hwf).
  - vm_compute; congruence.
  - vm_compute; reflexivity.
  - vm_compute; congruence.
  - vm_compute; congruence.
  - apply Z.leb_le; vm_compute; reflexivity.
  - apply Z.leb_le; vm_compute; reflexivity.
Defined.

(** ** Cell and area ids *)

(** Row-major ids over a [W]-wide, [H]-high grid, read back with the
    JavaScript remainder and a floor division. *)
Lemma row_major_bijection (W H x y id : Z) :
  0 < W ->
  (0 <= x < W -> 0 <= y < H ->
   Z.rem (x + y * W) W = x /\ (x + y * W) / W = y /\ 0 <= x + y * W < W * H) /\
  (0 <= id < W * H ->
   0 <= Z.rem id W < W /\ 0 <= id / W < H /\ Z.rem id W + id / W * W = id).
Proof.
  intros HW. split.
  - intros Hx Hy.
    rewrite Z.rem_mod_nonneg by nia.
    rewrite Z.mod_add, Z.mod_small by lia.
    rewrite Z.div_add, Z.div_small by lia. nia.
  - intros Hid. rewrite Z.rem_mod_nonneg by lia.
    pose proof (Z.mod_pos_bound id W HW). pose proof (Z.div_mod id W ltac:(lia)).
    split; [lia |]. split; [| lia]. split.
    + apply Z.div_pos; lia.
    + apply Z.div_lt_upper_bound; lia.
Qed.

(** X1: on a map at least one cell wide, [getIdByCellPoint] and
    [getCellPointById] are inverse bijections between the valid cells and
    the ids [0 .. mapCellCount - 1]. *)
Theorem cell_id_bijection (mu : MapUtil) :
  0 < cwidth (_mapSize mu) ->
  (forall x y, isVaildCellPoint mu (cell x y) = true ->
     getCellPointById mu (getIdByCellPoint mu x y) = cell x y /\
     0 <= getIdByCellPoint mu x y < mapCellCount mu) /\
  (forall id, 0 <= id < mapCellCount mu ->
     isVaildCellPoint mu (getCellPointById mu id) = true /\
     getIdByCellPoint mu (cx (getCellPointById mu id)) (cy (getCellPointById mu id)) = id).
Proof.
  intros HW. unfold isVaildCellPoint, getCellPointById, getIdByCellPoint, mapCellCount.
  split.
  - intros x y Hv. cbn [cx cy] in Hv.
    repeat rewrite andb_true_iff in Hv. rewrite Z.leb_le, !Z.ltb_lt, Z.leb_le in Hv.
    destruct (proj1 (row_major_bijection _ (cheight (_mapSize mu)) x y 0 HW))
      as (E1 & E2 & B); [lia | lia |].
    rewrite E1, E2. auto.
  - intros id Hid.
    destruct (proj2 (row_major_bijection _ _ 0 0 id HW) Hid) as (B1 & B2 & E).
    cbn [cx cy]. split; [| exact E].
    repeat rewrite andb_true_iff. rewrite !Z.leb_le, !Z.ltb_lt. lia.
Qed.

(** X2: the same for areas: on an area grid at least one area wide,
    [getIdByAreaPoint] and [getAreaPointById] are inverse bijections between
    the valid area points and the valid area ids. *)
Theorem area_id_bijection (mu : MapUtil) :
  0 < cwidth (_areaSize mu) ->
  (forall x y, isVaildAreaPoint mu (cell x y) = true ->
     getAreaPointById mu (getIdByAreaPoint mu x y) = cell x y /\
     isVaildAreaId mu (getIdByAreaPoint mu x y) = true) /\
  (forall id, isVaildAreaId mu id = true ->
     isVaildAreaPoint mu (getAreaPointById mu id) = true /\
     getIdByAreaPoint mu (cx (getAreaPointById mu id)) (cy (getAreaPointById mu id)) = id).
Proof.
  intros HW. unfold isVaildAreaPoint, isVaildAreaId, areaCount, getAreaPointById,
    getIdByAreaPoint.
  split.
  - intros x y Hv. cbn [cx cy] in Hv.
    repeat rewrite andb_true_iff in Hv. rewrite Z.leb_le, !Z.ltb_lt, Z.leb_le in Hv.
    destruct (proj1 (row_major_bijection _ (cheight (_areaSize mu)) x y 0 HW))
      as (E1 & E2 & B); [lia | lia |].
    rewrite E1, E2. split; [reflexivity |].
    rewrite andb_true_iff, Z.leb_le, Z.ltb_lt. lia.
  - intros id Hid. rewrite andb_true_iff, Z.leb_le, Z.ltb_lt in Hid.
    destruct (proj2 (row_major_bijection _ _ 0 0 id HW) Hid) as (B1 & B2 & E).
    cbn [cx cy]. split; [| exact E].
    repeat rewrite andb_true_iff. rewrite !Z.leb_le, !Z.ltb_lt. lia.
Qed.

(** X4: with positive area sides, every cell lies in the cell rectangle of
    its own area: start corner included, end corner excluded. *)
Theorem cell_in_own_area (mu : MapUtil) (x y : Z) :
  0 < cwidth (_areaCellSize mu) -> 0 < cheight (_areaCellSize mu) ->
  let a := getAreaPointByCellPoint mu x y in
  let s := getStartCellPointByAreaPoint mu (cx a) (cy a) in
  let e := getEndCellPointByAreaPoint mu (cx a) (cy a) in
  cx s <= x < cx e /\ cy s <= y < cy e.
Proof.
  intros Hw Hh. cbn.
  set (w := cwidth (_areaCellSize mu)) in *. set (h := cheight (_areaCellSize mu)) in *.
  pose proof (Z.div_mod x w ltac:(lia)). pose proof (Z.mod_pos_bound x w Hw).
  pose proof (Z.div_mod y h ltac:(lia)). pose proof (Z.mod_pos_bound y h Hh).
  nia.
Qed.

(** Floor of a cell coordinate by the area side stays below the ceiling of
    the map side by the area side. *)
Lemma floor_div_lt_ceiling (x s W : Z) :
  0 < s -> 0 <= x < W -> x / s < Qceiling (inject_Z W / inject_Z s).
Proof.
  intros Hs Hx.
  pose proof (Z.mul_div_le x s Hs).
  assert (Hq : (inject_Z (x / s) < inject_Z W / inject_Z s)%Q).
  { apply Qlt_shift_div_l.
    - change 0%Q with (inject_Z 0). rewrite <- Zlt_Qlt. lia.
    - rewrite <- inject_Z_mult, <- Zlt_Qlt. lia. }
  pose proof (Qle_ceiling (inject_Z W / inject_Z s)).
  rewrite Zlt_Qlt. eapply Qlt_le_trans; eassumption.
Qed.

Lemma Qceiling_nonneg_div (a b : Q) :
  (0 <= a)%Q -> (0 < b)%Q -> 0 <= Qceiling (a / b / 2).
Proof.
  intros Ha Hb.
  assert (H : (0 <= a / b / 2)%Q).
  { apply Qle_shift_div_l; [lra |]. rewrite Qmult_0_l.
    apply Qle_shift_div_l; [exact Hb |]. rewrite Qmult_0_l. exact Ha. }
  apply Qceiling_resp_le in H. exact H.
Qed.

(** X3: for a map configured by [initMapConfig] (non-negative viewport
    height, positive tile height, at least one row), the area of every valid
    cell is a valid area point and its id a valid area id. *)
Theorem initMapConfig_cell_area_valid (uit_w uit_h anchorX anchorY : Q)
    (tile : Size) (msize : CSize) (vsize : Size) (x y : Z) :
  (0 <= height vsize)%Q -> (0 < height tile)%Q -> 1 <= cheight msize ->
  let mu := initMapConfig uit_w uit_h anchorX anchorY tile msize vsize in
  isVaildCellPoint mu (cell x y) = true ->
  isVaildAreaPoint mu (getAreaPointByCellPoint mu x y) = true /\
  isVaildAreaId mu (getAreaIdByCellPoint mu x y) = true.
Proof.
  intros Hvh Hth HH mu Hv.
  pose proof (Qceiling_nonneg_div _ _ Hvh Hth) as Hk.
  unfold isVaildCellPoint in Hv. subst mu. cbn [initMapConfig _mapSize cx cy] in Hv.
  repeat rewrite andb_true_iff in Hv. rewrite Z.leb_le, !Z.ltb_lt, Z.leb_le in Hv.
  unfold isVaildAreaPoint, isVaildAreaId, getAreaIdByCellPoint, getAreaPointByCellPoint,
    getIdByAreaPoint, areaCount.
  cbn [initMapConfig _areaCellSize _areaSize cx cy cwidth cheight].
  set (s := Z.min (Qceiling (height vsize / height tile / 2) * 2 + 2) (cheight msize)).
  assert (Hs : 0 < s) by (subst s; lia).
  pose proof (floor_div_lt_ceiling x s (cwidth msize) Hs ltac:(lia)) as Bx.
  pose proof (floor_div_lt_ceiling y s (cheight msize) Hs ltac:(lia)) as By.
  pose proof (Z.div_pos x s ltac:(lia) Hs). pose proof (Z.div_pos y s ltac:(lia) Hs).
  repeat rewrite andb_true_iff. rewrite !Z.leb_le, !Z.ltb_lt.
  split; [lia | nia].
Qed.

(** ** Neighbour lists *)

(** X5: [get9GridVaildAreaIds] keeps exactly the valid ids of the raw
    nine-grid, so it holds the centre iff the centre is valid; on an area
    grid at least three areas wide no id is repeated. *)
Theorem get9GridVaildAreaIds_spec (mu : MapUtil) (id : Z) :
  let l := get9GridVaildAreaIds mu id in
  (forall i, In i l <-> In i (get9GridAreaIds mu id) /\ isVaildAreaId mu i = true) /\
  (In id l <-> isVaildAreaId mu id = true) /\
  (3 <= cwidth (_areaSize mu) -> List.NoDup l).
Proof.
  intros l. subst l. unfold get9GridVaildAreaIds.
  split; [intros i; apply filter_In |].
  split.
  - rewrite filter_In. split; [tauto |]. intros H; split; [| exact H].
    unfold get9GridAreaIds. cbn. tauto.
  - intros Hw. apply List.NoDup_filter. unfold get9GridAreaIds.
    repeat constructor; cbn; intuition lia.
Qed.

Lemma In_zrange (a t : Z) (n : nat) : In t (zrange a n) <-> a <= t < a + Z.of_nat n.
Proof.
  revert a. induction n as [| n IH]; intros a; cbn [zrange In].
  - lia.
  - rewrite IH. lia.
Qed.

Lemma length_zrange (a : Z) (n : nat) : length (zrange a n) = n.
Proof. revert a. induction n; intros a; cbn; [reflexivity | now rewrite IHn]. Qed.

(** X7: [getSideIdsForSysCity] returns [4 * (2 * dis + 1)] ids, where
    [dis] is 3, 2 or 1 by the city level; each is the id of a cell at
    Chebyshev distance exactly [dis] from [(x, y)], and each of the four
    corner cells is pushed twice: its id occurs at least twice. *)
Theorem getSideIdsForSysCity_ring (mu : MapUtil) (x y level : Z) :
  let dis := sysCityDis level in
  let l := getSideIdsForSysCity mu x y level in
  length l = (4 * Z.to_nat (2 * dis + 1))%nat /\
  (forall i, In i l -> exists tx ty,
     i = getIdByCellPoint mu tx ty /\ Z.max (Z.abs (tx - x)) (Z.abs (ty - y)) = dis) /\
  (2 <= count_occ Z.eq_dec l (getIdByCellPoint mu (x - dis) (y + dis)))%nat /\
  (2 <= count_occ Z.eq_dec l (getIdByCellPoint mu (x + dis) (y + dis)))%nat /\
  (2 <= count_occ Z.eq_dec l (getIdByCellPoint mu (x - dis) (y - dis)))%nat /\
  (2 <= count_occ Z.eq_dec l (getIdByCellPoint mu (x + dis) (y - dis)))%nat.
Proof.
  intros dis l. subst l. unfold getSideIdsForSysCity. fold dis.
  assert (Hd : 1 <= dis <= 3) by (subst dis; unfold sysCityDis; repeat case_match; lia).
  set (n := Z.to_nat (2 * dis + 1)).
  assert (Hrow : forall (f : Z -> Z) a t, a <= t <= a + 2 * dis ->
            (1 <= count_occ Z.eq_dec (map f (zrange a n)) (f t))%nat).
  { intros f a t Ht. apply (count_occ_In Z.eq_dec), (in_map f), In_zrange.
    subst n. rewrite Z2Nat.id by lia. lia. }
  unfold n in *. clear n.
  split; [| split].
  - rewrite !length_app, !length_map, !length_zrange. lia.
  - intros i Hi. rewrite !in_app_iff, !in_map_iff in Hi.
    destruct Hi as [(t & <- & Ht) | [(t & <- & Ht) | [(t & <- & Ht) | (t & <- & Ht)]]];
      apply In_zrange in Ht; rewrite Z2Nat.id in Ht by lia; eexists _, _; split;
      try reflexivity; lia.
  - rewrite !count_occ_app.
    pose proof (Hrow (fun tx => getIdByCellPoint mu tx (y + dis)) (x - dis) (x - dis)).
    pose proof (Hrow (fun tx => getIdByCellPoint mu tx (y + dis)) (x - dis) (x + dis)).
    pose proof (Hrow (fun tx => getIdByCellPoint mu tx (y - dis)) (x - dis) (x - dis)).
    pose proof (Hrow (fun tx => getIdByCellPoint mu tx (y - dis)) (x - dis) (x + dis)).
    pose proof (Hrow (fun ty => getIdByCellPoint mu (x - dis) ty) (y - dis) (y + dis)).
    pose proof (Hrow (fun ty => getIdByCellPoint mu (x - dis) ty) (y - dis) (y - dis)).
    pose proof (Hrow (fun ty => getIdByCellPoint mu (x + dis) ty) (y - dis) (y + dis)).
    pose proof (Hrow (fun ty => getIdByCellPoint mu (x + dis) ty) (y - dis) (y - dis)).
    cbv beta in *. repeat split; lia.
Qed.

(** X8: [getSideIdsForRoleCity] returns 16 ids; on a map at least five
    cells wide it contains [id - w - 1], the diagonal neighbour one row
    down, and never [id - 2w], the cell two rows straight down, while it
    does contain [id + 2w], the cell two rows straight up. *)
Theorem getSideIdsForRoleCity_shape (mu : MapUtil) (id : Z) :
  5 <= cwidth (_mapSize mu) ->
  let w := cwidth (_mapSize mu) in
  let l := getSideIdsForRoleCity mu id in
  length l = 16%nat /\ In (id - w - 1) l /\ In (id + w * 2) l /\ ~ In (id - w * 2) l.
Proof.
  intros Hw w l. subst l. unfold getSideIdsForRoleCity. fold w.
  split; [reflexivity |]. split; [cbn; tauto |]. split; [cbn; tauto |].
  cbn. intuition lia.
Qed.

(** ** Area ids of pixel points *)

Lemma NoDup_snoc (l : list Z) (x : Z) :
  List.NoDup l -> ~ In x l -> List.NoDup (l ++ [x]).
Proof.
  intros Hnd Hx. rewrite <- NoDup_ListNoDup in *. apply NoDup_app.
  split; [exact Hnd |]. split; [| apply NoDup_singleton].
  intros y Hy Hy'. apply list_elem_of_singleton in Hy' as ->.
  apply Hx, list_elem_of_In, Hy.
Qed.

Lemma getVaildAreaIds_fold (mu : MapUtil) (points : list Vec2) (acc : list Z) :
  List.NoDup acc ->
  let l := fold_left (fun list p =>
      let cellPoint := mapPixelToCellPoint mu p in
      let areaPoint := getAreaPointByCellPoint mu (cx cellPoint) (cy cellPoint) in
      let index := getIdByAreaPoint mu (cx areaPoint) (cy areaPoint) in
      if isVaildAreaId mu index && (indexOf list index =? -1)
      then list ++ [index] else list) points acc in
  List.NoDup l /\
  (forall i, In i l <-> In i acc \/
     (isVaildAreaId mu i = true /\ exists p, In p points /\
        i = getAreaIdByCellPoint mu (cx (mapPixelToCellPoint mu p))
                                    (cy (mapPixelToCellPoint mu p)))).
Proof.
  revert acc. induction points as [| p ps IH]; intros acc Hnd; cbn [fold_left].
  - split; [exact Hnd |]. intros i. split; [tauto |].
    intros [H | (_ & q & [] & _)]. exact H.
  - set (index := getIdByAreaPoint mu _ _).
    assert (Hidx : index = getAreaIdByCellPoint mu (cx (mapPixelToCellPoint mu p))
                                               (cy (mapPixelToCellPoint mu p)))
      by reflexivity.
    destruct (isVaildAreaId mu index && (indexOf acc index =? -1)) eqn:C.
    + apply andb_true_iff in C as [Cv Ci]. apply Z.eqb_eq, indexOf_absent in Ci.
      rewrite list_elem_of_In in Ci.
      destruct (IH (acc ++ [index]) (NoDup_snoc acc index Hnd Ci)) as [Hn Hi].
      split; [exact Hn |]. intros i. rewrite Hi, in_app_iff. cbn [In].
      split.
      * intros [[H | [<- | []]] | (Hv & q & Hq & ->)]; [tauto | |].
        -- right. split; [exact Cv |]. exists p. split; [left; reflexivity | exact Hidx].
        -- right. split; [exact Hv |]. exists q. split; [right; exact Hq | reflexivity].
      * intros [H | (Hv & q & [<- | Hq] & ->)]; [tauto | |].
        -- left. right. left. symmetry. exact Hidx.
        -- right. split; [exact Hv |]. exists q. split; [exact Hq | reflexivity].
    + destruct (IH acc Hnd) as [Hn Hi]. split; [exact Hn |]. intros i. rewrite Hi.
      split.
      * intros [H | (Hv & q & Hq & ->)]; [tauto |].
        right. split; [exact Hv |]. exists q. split; [right; exact Hq | reflexivity].
      * intros [H | (Hv & q & [<- | Hq] & ->)]; [tauto | |].
        -- left. rewrite <- Hidx in Hv |- *.
           destruct (indexOf acc index =? -1) eqn:Ci.
           ++ rewrite Hv in C. discriminate.
           ++ apply Z.eqb_neq in Ci. destruct (in_dec Z.eq_dec index acc) as [Hin | Hin];
                [exact Hin |].
              exfalso. apply Ci, indexOf_absent. rewrite list_elem_of_In. exact Hin.
        -- right. split; [exact Hv |]. exists q. split; [exact Hq | reflexivity].
Qed.

(** X6: [getVaildAreaIdsByPixelPoints] lists each valid area id of the
    given pixel points exactly once, and nothing else: invalid areas (points
    off the map) are dropped. *)
Theorem getVaildAreaIdsByPixelPoints_spec (mu : MapUtil) (points : list Vec2) :
  let l := getVaildAreaIdsByPixelPoints mu points in
  List.NoDup l /\
  (forall i, In i l <->
     isVaildAreaId mu i = true /\ exists p, In p points /\
       i = getAreaIdByCellPoint mu (cx (mapPixelToCellPoint mu p))
                                   (cy (mapPixelToCellPoint mu p))).
Proof.
  destruct (getVaildAreaIds_fold mu points [] (List.NoDup_nil _)) as [Hn Hi].
  split; [exact Hn |]. intros i. unfold getVaildAreaIdsByPixelPoints.
  rewrite Hi. cbn [In]. tauto.
Qed.

(** ** More on [setCurCenterPoint] *)

Lemma get9GridVaild_valid (mu : MapUtil) (id i : Z) :
  In i (get9GridVaildAreaIds mu id) -> isVaildAreaId mu i = true.
Proof. unfold get9GridVaildAreaIds. rewrite filter_In. tauto. Qed.

Lemma get9GridVaild_NoDup (mu : MapUtil) (id : Z) :
  3 <= cwidth (_areaSize mu) -> List.NoDup (get9GridVaildAreaIds mu id).
Proof.
  intros Hw. apply List.NoDup_filter. unfold get9GridAreaIds.
  repeat constructor; cbn; intuition lia.
Qed.

Lemma filter_notin (k l : list Z) (i : Z) :
  In i (List.filter (fun i => indexOf l i =? -1) k) -> In i k /\ ~ In i l.
Proof.
  rewrite filter_In, Z.eqb_eq, indexOf_absent, list_elem_of_In. tauto.
Qed.


Lemma qry_covers (fo : option (list Z)) (add : list Z) (i : Z) :
  In i add ->
  let other := match fo with
               | Some f => if (0 <? length f)%nat
                           then List.filter (fun i => indexOf f i =? -1) add else add
               | None => add
               end in
  In i (match fo with
        | Some f => if (0 <? length f)%nat then f ++ other else other
        | None => other
        end).
Proof.
  intros Hi other. subst other. destruct fo as [f |]; [| exact Hi].
  destruct (0 <? length f)%nat; [| exact Hi].
  apply in_app_iff. destruct (in_dec Z.eq_dec i f) as [Hf | Hf]; [left; exact Hf |].
  right. apply filter_In. split; [exact Hi |]. apply Z.eqb_eq, indexOf_absent.
  rewrite list_elem_of_In. exact Hf.
Qed.

Section CenterPointMore.

Variable mu : MapUtil.

(** X9: when [setCurCenterPoint] reports a change, the proxy afterwards is
    centered on the given cell, its center area id is the area id of that
    cell, and the first event is the center-changed event; when it reports
    none, the proxy is unchanged and no event is sent. *)
Theorem setCurCenterPoint_result (st : MapProxy) (point : Cell) (pix : Vec2) :
  let '(changed, st', evs) := setCurCenterPoint mu st point pix in
  if changed
  then _curCenterPoint st' = Some point /\
       _curCenterAreaId st' = getAreaIdByCellPoint mu (cx point) (cy point) /\
       hd_error evs = Some (mapEenterChange point)
  else st' = st /\ evs = [].
Proof.
  unfold setCurCenterPoint.
  destruct (match _curCenterPoint st with Some c => _ | None => true end);
    [| split; reflexivity].
  destruct (_ || _) eqn:Ha.
  2:{ cbn. split; [reflexivity |]. split; [| reflexivity].
      apply orb_false_iff in Ha as [_ Ha]. apply negb_false_iff, Z.eqb_eq in Ha.
      exact Ha. }
  destruct (getMapAreaData mu (_mapAreaDatas st) _) as [ad d1].
  destruct (if _curCenterAreaId st =? -1 then _ else _) as [full d2].
  destruct full; cbn; auto.
Qed.

(** X10: every area-change event of [setCurCenterPoint] carries the given
    cell and its area id; its added and removed ids are all valid area ids,
    no id is both added and removed, and on an area grid at least three
    areas wide neither list repeats an id. *)
Theorem setCurCenterPoint_area_event (st : MapProxy) (point : Cell) (pix : Vec2) :
  Forall (fun e => match e with
    | mapShowAreaChange p a add rem =>
        p = point /\ a = getAreaIdByCellPoint mu (cx point) (cy point) /\
        (forall i, In i add -> isVaildAreaId mu i = true) /\
        (forall i, In i rem -> isVaildAreaId mu i = true) /\
        (forall i, In i add -> ~ In i rem) /\
        (3 <= cwidth (_areaSize mu) -> List.NoDup add /\ List.NoDup rem)
    | mapEenterChange _ => True
    end) (snd (setCurCenterPoint mu st point pix)).
Proof.
  unfold setCurCenterPoint.
  destruct (match _curCenterPoint st with Some c => _ | None => true end);
    [| constructor].
  destruct (_ || _); [| repeat constructor].
  destruct (getMapAreaData mu (_mapAreaDatas st) _) as [ad d1].
  destruct (if _curCenterAreaId st =? -1 then _ else _) as [full d2].
  destruct full; cbn [snd];
    (constructor; [exact I |]); (constructor; [| constructor]);
    (split; [reflexivity |]); (split; [reflexivity |]).
  - split; [intros i Hi; eapply get9GridVaild_valid; exact Hi |].
    split; [intros i [] |]. split; [intros i _ [] |].
    intros Hw. split; [apply get9GridVaild_NoDup; exact Hw | constructor].
  - split; [intros i Hi; apply filter_notin in Hi as [Hi _];
            eapply get9GridVaild_valid; exact Hi |].
    split; [intros i Hi; apply filter_notin in Hi as [Hi _];
            eapply get9GridVaild_valid; exact Hi |].
    split.
    + intros i Hi Hr. apply filter_notin in Hi as [_ Hi].
      apply filter_notin in Hr as [Hr _]. contradiction.
    + intros Hw. split; apply List.NoDup_filter, get9GridVaild_NoDup; exact Hw.
Qed.

(** X11: [setCurCenterPoint] only appends to the query queue; every area
    id added by the area-change event is in the appended part, and when no
    area-change event is sent nothing is appended. *)
Theorem setCurCenterPoint_queue (st : MapProxy) (point : Cell) (pix : Vec2) :
  let '(_, st', evs) := setCurCenterPoint mu st point pix in
  exists inc, qryAreaIds st' = qryAreaIds st ++ inc /\
    (forall p a add rem, In (mapShowAreaChange p a add rem) evs ->
       forall i, In i add -> In i inc) /\
    ((forall p a add rem, ~ In (mapShowAreaChange p a add rem) evs) -> inc = []).
Proof.
  unfold setCurCenterPoint.
  destruct (match _curCenterPoint st with Some c => _ | None => true end).
  2:{ exists []. rewrite app_nil_r. split; [reflexivity|]. split; [intros ? ? ? ? []|]. reflexivity. }
  destruct (_ || _).
  2:{ exists []. cbn. rewrite app_nil_r. split; [reflexivity|]. split; [|reflexivity].
      intros p a add rem [H|[]]. discriminate. }
  destruct (getMapAreaData mu (_mapAreaDatas st) _) as [ad d1].
  destruct (if _curCenterAreaId st =? -1 then _ else _) as [full d2].
  destruct full; cbn [qryAreaIds].
  all: eexists; split; [reflexivity |]; split;
    [ intros p a add rem [H | [H | []]]; [discriminate |]; injection H as <- <- <- <-;
      intros i Hi; first [exact (qry_covers (Some _) _ i Hi) | exact (qry_covers _ _ i Hi)]
    | intros H; exfalso; eapply H; right; left; reflexivity ].
Qed.

(** X12: on a full reload (no previous center area, or a new center area
    more than 3 areas away on one axis, over a well-formed store), the area
    event adds the valid nine-grid of the new area and removes nothing, so
    the old areas are never reported as removed; the queue gets the valid
    areas of the view center and the four screen corners first, then the
    rest of the new nine-grid. *)
Theorem setCurCenterPoint_reload (st : MapProxy) (point : Cell) (pix : Vec2) (areaId : Z) :
  store_wf mu (_mapAreaDatas st) ->
  _curCenterPoint st <> Some point ->
  getAreaIdByCellPoint mu (cx point) (cy point) = areaId ->
  _curCenterAreaId st = -1 \/
  3 < Z.abs (cx (getAreaPointById mu areaId) - cx (getAreaPointById mu (_curCenterAreaId st))) \/
  3 < Z.abs (cy (getAreaPointById mu areaId) - cy (getAreaPointById mu (_curCenterAreaId st))) ->
  let f := getVaildAreaIdsByPixelPoints mu (cornerPoints mu pix) in
  let newIds := get9GridVaildAreaIds mu areaId in
  exists st',
    setCurCenterPoint mu st point pix =
      (true, st', [mapEenterChange point; mapShowAreaChange point areaId newIds []]) /\
    _curCenterAreaId st' = areaId /\
    qryAreaIds st' = qryAreaIds st ++
      (if (0 <? length f)%nat then f ++ list_difference newIds f else newIds).
Proof.
  intros Hwf Hne Harea Hjump f newIds.
  unfold setCurCenterPoint. rewrite (center_changed st point Hne).
  unfold getAreaIdByCellPoint in Harea. cbv zeta. rewrite Harea.
  pose proof (getMapAreaData_spec mu (_mapAreaDatas st) areaId Hwf) as S1.
  destruct (getMapAreaData mu (_mapAreaDatas st) areaId) as [nd d1].
  destruct S1 as [(Hid & Hx & Hy & _) [_ [Hwf1 _]]].
  rewrite Hid.
  assert (Hfull : (if _curCenterAreaId st =? -1 then (true, d1)
                   else let (old, d) := getMapAreaData mu d1 (_curCenterAreaId st) in
                        (negb (fuzzyEquals old (Some nd) 3), d))
                  = (true, if _curCenterAreaId st =? -1 then d1
                           else snd (getMapAreaData mu d1 (_curCenterAreaId st)))).
  { destruct (Z.eqb_spec (_curCenterAreaId st) (-1)) as [E | E]; [reflexivity |].
    pose proof (getMapAreaData_spec mu d1 (_curCenterAreaId st) Hwf1) as S2.
    destruct (getMapAreaData mu d1 (_curCenterAreaId st)) as [od d2].
    destruct S2 as [(_ & Ox & Oy & _) _].
    assert (Hfz : fuzzyEquals od (Some nd) 3 = false).
    { unfold fuzzyEquals. rewrite Hx, Hy, Ox, Oy.
      destruct Hjump as [Hj | Hj]; [contradiction |].
      set (ax := cx (getAreaPointById mu areaId)) in *.
      set (ay := cy (getAreaPointById mu areaId)) in *.
      set (bx := cx (getAreaPointById mu (_curCenterAreaId st))) in *.
      set (by' := cy (getAreaPointById mu (_curCenterAreaId st))) in *.
      destruct (Z.leb_spec (bx - 3) ax), (Z.leb_spec ax (bx + 3)),
        (Z.leb_spec (by' - 3) ay), (Z.leb_spec ay (by' + 3)); cbn; try reflexivity; lia. }
    rewrite Hfz. reflexivity. }
  assert (Hcond : ((_curCenterAreaId st =? -1) || negb (_curCenterAreaId st =? areaId)) = true).
  { destruct (Z.eqb_spec (_curCenterAreaId st) (-1)); [reflexivity |].
    destruct (Z.eqb_spec (_curCenterAreaId st) areaId) as [E | E]; [| reflexivity].
    exfalso. rewrite E in Hjump. lia. }
  rewrite Hcond, Hfull. cbv beta iota.
  eexists. split; [reflexivity |]. split; [reflexivity |].
  subst f newIds. rewrite filter_indexOf_difference.
  destruct (0 <? length _)%nat; reflexivity.
Qed.

End CenterPointMore.

Lemma setCurCenterPoint_reload_witness :
  store_wf largeMap (_mapAreaDatas jumpStart) /\
  _curCenterPoint jumpStart <> Some (cell 60 60) /\
  getAreaIdByCellPoint largeMap 60 60 = 77 /\
  _curCenterAreaId jumpStart = 0 /\
  let f := getVaildAreaIdsByPixelPoints largeMap (cornerPoints largeMap (v2 0 0)) in
  let newIds := get9GridVaildAreaIds largeMap 77 in
  exists st',
    setCurCenterPoint largeMap jumpStart (cell 60 60) (v2 0 0) =
      (true, st', [mapEenterChange (cell 60 60);
                   mapShowAreaChange (cell 60 60) 77 newIds []]) /\
    _curCenterAreaId st' = 77 /\
    qryAreaIds st' = qryAreaIds jumpStart ++
      (if (0 <? length f)%nat then f ++ list_difference newIds f else newIds).
Proof.
  assert (Hwf : store_wf largeMap (_mapAreaDatas jumpStart))
    by (apply setCurCenterPoint_store_wf, store_wf_empty).
  assert (H1 : _curCenterPoint jumpStart <> Some (cell 60 60)) by (vm_compute; congruence).
  assert (H2 : getAreaIdByCellPoint largeMap 60 60 = 77) by (vm_compute; reflexivity).
  assert (H3 : _curCenterAreaId jumpStart = 0) by (vm_compute; reflexivity).
  split; [exact Hwf |]. split; [exact H1 |]. split; [exact H2 |]. split; [exact H3 |].
  apply (setCurCenterPoint_reload largeMap jumpStart (cell 60 60) (v2 0 0) 77 Hwf H1 H2).
  right. left. rewrite H3. vm_compute. reflexivity.
Defined.

(** ** Map resources *)

Lemma initMapResConfig_from_spec (w i0 : Z) (l : list (Z * Z)) :
  let (all, sys) := initMapResConfig_from w i0 l in
  length all = length l /\
  (forall k t lv, nth_error l k = Some (t, lv) ->
     nth_error all k = Some {| res_id := i0 + Z.of_nat k; res_type := t; res_level := lv;
                               res_x := Z.rem (i0 + Z.of_nat k) w;
                               res_y := (i0 + Z.of_nat k) / w |}) /\
  sys = List.filter (fun d => res_type d =? SYS_CITY) all.
Proof.
  revert i0. induction l as [| [t lv] l IH]; intros i0; cbn [initMapResConfig_from].
  - split; [reflexivity |]. split; [intros [] ? ? H; discriminate | reflexivity].
  - specialize (IH (i0 + 1)). destruct (initMapResConfig_from w (i0 + 1) l) as [all sys].
    destruct IH as (Hl & Hn & Hs).
    split; [cbn; rewrite Hl; reflexivity |]. split.
    + intros [| k] t' lv' Hk; cbn in Hk |- *.
      * injection Hk as <- <-. rewrite Z.add_0_r. reflexivity.
      * rewrite (Hn k t' lv' Hk).
        replace (i0 + 1 + Z.of_nat k) with (i0 + Z.of_nat (S k)) by lia. reflexivity.
    + cbn. rewrite Hs. destruct (t =? SYS_CITY); reflexivity.
Qed.

(** X13: for a positive map width [w], [initMapResConfig] makes one
    resource point per entry, in order: entry [k] gives id [k], its type and
    level, and the cell [(k mod w, k / w)], which lies inside the map width
    and has row-major id [k]; the system-city list is the sublist of points
    of type 51, in the same order. *)
Theorem initMapResConfig_spec (w : Z) (list : list (Z * Z)) :
  0 < w ->
  let (resDatas, sysCities) := initMapResConfig w list in
  length resDatas = length list /\
  (forall k t lv, nth_error list k = Some (t, lv) ->
     exists d, nth_error resDatas k = Some d /\
       res_id d = Z.of_nat k /\ res_type d = t /\ res_level d = lv /\
       0 <= res_x d < w /\ 0 <= res_y d /\ res_x d + res_y d * w = res_id d) /\
  sysCities = List.filter (fun d => res_type d =? SYS_CITY) resDatas.
Proof.
  intros Hw. unfold initMapResConfig.
  pose proof (initMapResConfig_from_spec w 0 list) as H.
  destruct (initMapResConfig_from w 0 list) as [all sys].
  destruct H as (Hl & Hn & Hs). split; [exact Hl |]. split; [| exact Hs].
  intros k t lv Hk. eexists. split; [exact (Hn k t lv Hk) |]. cbn.
  rewrite Z.add_0_l. split; [reflexivity |]. split; [reflexivity |]. split; [reflexivity |].
  rewrite Z.rem_mod_nonneg by lia.
  pose proof (Z.mod_pos_bound (Z.of_nat k) w Hw).
  pose proof (Z.div_mod (Z.of_nat k) w ltac:(lia)).
  pose proof (Z.div_pos (Z.of_nat k) w ltac:(lia) Hw). lia.
Qed.

(** X14: [getSysCityResData] returns [null] exactly when no system city's
    influence square (radius 3, 2 or 1 by level) holds [(x, y)]; otherwise
    it returns the first such city of the list. *)
Theorem getSysCityResData_spec (sysCities : list MapResData) (x y : Z) :
  (getSysCityResData sysCities x y = None <-> Forall (fun d => ~ sysCityCovers d x y) sysCities) /\
  (forall d, getSysCityResData sysCities x y = Some d ->
     exists pre post, sysCities = pre ++ d :: post /\ sysCityCovers d x y /\
       Forall (fun e => ~ sysCityCovers e x y) pre).
Proof.
  induction sysCities as [| c cs [IHn IHs]]; cbn [getSysCityResData].
  - split; [split; [constructor | reflexivity] | discriminate].
  - unfold sysCityCovers at 1 2. 
    destruct (Z.leb_spec (Z.abs (x - res_x c)) (sysCityDis (res_level c)));
    destruct (Z.leb_spec (Z.abs (y - res_y c)) (sysCityDis (res_level c))); cbn [andb].
    + split; [split; [discriminate | intros Hf; inversion Hf; exfalso; tauto] |].
      intros d [= <-]. exists [], cs. split; [reflexivity |]. split; [split; assumption | constructor].
    + rewrite IHn. split.
      * split; [intros Hf; constructor; [unfold sysCityCovers; lia | exact Hf] | intros Hf; inversion Hf; assumption].
      * intros d Hd. destruct (IHs d Hd) as (pre & post & E & Hc & Hp).
        exists (c :: pre), post. rewrite E. split; [reflexivity |]. split; [exact Hc |].
        constructor; [unfold sysCityCovers; lia | exact Hp].
    + rewrite IHn. split.
      * split; [intros Hf; constructor; [unfold sysCityCovers; lia | exact Hf] | intros Hf; inversion Hf; assumption].
      * intros d Hd. destruct (IHs d Hd) as (pre & post & E & Hc & Hp).
        exists (c :: pre), post. rewrite E. split; [reflexivity |]. split; [exact Hc |].
        constructor; [unfold sysCityCovers; lia | exact Hp].
    + rewrite IHn. split.
      * split; [intros Hf; constructor; [unfold sysCityCovers; lia | exact Hf] | intros Hf; inversion Hf; assumption].
      * intros d Hd. destruct (IHs d Hd) as (pre & post & E & Hc & Hp).
        exists (c :: pre), post. rewrite E. split; [reflexivity |]. split; [exact Hc |].
        constructor; [unfold sysCityCovers; lia | exact Hp].
Qed.

(** ** Position tags *)

Lemma addMapPosTag_ok (tags : list MapTagPos) (x y : Z) (ok : bool) :
  fold_left (fun ok tag => if (tag_x tag =? x) && (tag_y tag =? y) then false else ok)
    tags ok = ok && negb (isPosTag tags x y).
Proof.
  revert ok. induction tags as [| t tags IH]; intros ok; cbn [fold_left isPosTag].
  - rewrite andb_true_r. reflexivity.
  - rewrite IH. destruct ((tag_x t =? x) && (tag_y t =? y)); cbn.
    + rewrite andb_false_r. reflexivity.
    + reflexivity.
Qed.

Lemma isPosTag_app (a b : list MapTagPos) (x y : Z) :
  isPosTag (a ++ b) x y = isPosTag a x y || isPosTag b x y.
Proof.
  induction a as [| t a IH]; cbn; [reflexivity |].
  destruct (_ && _); [reflexivity | exact IH].
Qed.

Lemma isPosTag_In (tags : list MapTagPos) (x y : Z) :
  isPosTag tags x y = true <-> exists t, In t tags /\ tag_x t = x /\ tag_y t = y.
Proof.
  induction tags as [| t tags IH]; cbn [isPosTag In].
  - split; [discriminate | intros (? & [] & _)].
  - destruct (Z.eqb_spec (tag_x t) x), (Z.eqb_spec (tag_y t) y); cbn [andb];
      try (rewrite IH; split; [intros (u & Hu & H1 & H2); exists u; tauto |
                               intros (u & [<- | Hu] & H1 & H2); [lia | exists u; tauto]]).
    split; [intros _; exists t; tauto | reflexivity].
Qed.

Lemma NoDup_map_filter {A B} (f : A -> B) (p : A -> bool) (l : list A) :
  List.NoDup (map f l) -> List.NoDup (map f (List.filter p l)).
Proof.
  induction l as [| a l IH]; cbn; [tauto |].
  intros Hnd. inversion Hnd as [| ? ? Ha Hl]; subst.
  destruct (p a); cbn; [| exact (IH Hl)].
  constructor; [| exact (IH Hl)].
  intros Hin. apply Ha. apply in_map_iff in Hin as (b & Hb & Hin).
  apply filter_In in Hin as [Hin _]. rewrite <- Hb. apply in_map, Hin.
Qed.

(** X15: after [addMapPosTag] the position is tagged; a position already
    tagged keeps its old tag (the new name is dropped), an untagged one gets
    the new tag at the end; other positions are unaffected, and tag
    positions stay free of duplicates. *)
Theorem addMapPosTag_spec (tags : list MapTagPos) (x y : Z) (name : String.string) :
  let tags' := addMapPosTag tags x y name in
  isPosTag tags' x y = true /\
  (isPosTag tags x y = true -> tags' = tags) /\
  (isPosTag tags x y = false ->
     tags' = tags ++ [{| tag_x := x; tag_y := y; tag_name := name |}]) /\
  (forall x' y', (x', y') <> (x, y) -> isPosTag tags' x' y' = isPosTag tags x' y') /\
  (List.NoDup (map tag_pos tags) -> List.NoDup (map tag_pos tags')).
Proof.
  intros tags'. subst tags'. unfold addMapPosTag. rewrite addMapPosTag_ok. cbn [andb].
  destruct (isPosTag tags x y) eqn:E; cbn [negb].
  - split; [exact E |]. split; [intros _; reflexivity |]. split; [discriminate |].
    split; [reflexivity | tauto].
  - rewrite isPosTag_app. cbn [isPosTag tag_x tag_y]. rewrite !Z.eqb_refl. cbn [andb orb].
    split; [apply orb_true_r |]. split; [discriminate |]. split; [intros _; reflexivity |].
    split.
    + intros x' y' Hne. rewrite isPosTag_app. cbn [isPosTag tag_x tag_y].
      destruct (Z.eqb_spec x x'), (Z.eqb_spec y y'); cbn [andb];
        try (rewrite orb_false_r; reflexivity).
      subst. congruence.
    + intros Hnd. rewrite map_app. cbn. rewrite <- NoDup_ListNoDup in *.
      apply NoDup_app. split; [exact Hnd |]. split; [| apply NoDup_singleton].
      intros p Hp Hp'. apply list_elem_of_singleton in Hp'. subst p.
      apply list_elem_of_In, in_map_iff in Hp as (t & Ht & Hin).
      unfold tag_pos in Ht. injection Ht as Hx Hy.
      assert (isPosTag tags x y = true) by (apply isPosTag_In; exists t; tauto).
      congruence.
Qed.

(** X16: after [removeMapPosTag] the position is no longer tagged, every
    tag at another position is kept and no other is added, and tag
    positions stay free of duplicates. *)
Theorem removeMapPosTag_spec (tags : list MapTagPos) (x y : Z) :
  let tags' := removeMapPosTag tags x y in
  isPosTag tags' x y = false /\
  (forall x' y', (x', y') <> (x, y) -> isPosTag tags' x' y' = isPosTag tags x' y') /\
  (forall t, In t tags' <-> In t tags /\ (tag_x t, tag_y t) <> (x, y)) /\
  (List.NoDup (map tag_pos tags) -> List.NoDup (map tag_pos tags')).
Proof.
  intros tags'. subst tags'. unfold removeMapPosTag.
  assert (Hin : forall t, In t (List.filter (fun tag => negb (tag_x tag =? x) || negb (y =? tag_y tag)) tags)
                  <-> In t tags /\ (tag_x t, tag_y t) <> (x, y)).
  { intros t. rewrite filter_In.
    destruct (Z.eqb_spec (tag_x t) x), (Z.eqb_spec y (tag_y t)); cbn;
      split; intros [H1 H2]; (split; [exact H1 |]); try discriminate; try congruence;
      try reflexivity; try (exfalso; apply H2; f_equal; congruence). }
  split; [| split; [| split; [exact Hin |]]].
  - destruct (isPosTag _ x y) eqn:E; [| reflexivity].
    apply isPosTag_In in E as (t & Ht & Hx & Hy). apply Hin in Ht as [_ Ht].
    subst. exfalso; apply Ht; reflexivity.
  - intros x' y' Hne. apply eq_bool_prop_intro. rewrite !Is_true_true, !isPosTag_In.
    split; intros (t & Ht & Hx & Hy); exists t; (split; [| tauto]).
    + apply Hin in Ht. tauto.
    + apply Hin. split; [exact Ht | congruence].
  - apply NoDup_map_filter.
Qed.

(** ** Layer items and areas *)

Lemma map_get_snoc (l : list (Z * Node)) (id id' : Z) (n : Node) :
  map_get l id = None ->
  map_get (l ++ [(id, n)]) id' = if id =? id' then Some n else map_get l id'.
Proof.
  induction l as [| [k m] l IH]; cbn; intros H.
  - destruct (id =? id'); reflexivity.
  - destruct (Z.eqb_spec k id); [discriminate |].
    destruct (Z.eqb_spec k id') as [-> | Hk].
    + destruct (Z.eqb_spec id id'); [congruence | reflexivity].
    + apply IH, H.
Qed.

Lemma map_get_delete (l : list (Z * Node)) (id id' : Z) :
  map_get (map_delete l id) id' = if id =? id' then None else map_get l id'.
Proof.
  unfold map_delete.
  induction l as [| [k m] l IH]; cbn [List.filter fst map_get].
  - destruct (id =? id'); reflexivity.
  - destruct (Z.eqb_spec k id) as [-> | Hk]; cbn [negb map_get].
    + rewrite IH. destruct (Z.eqb_spec id id'); reflexivity.
    + destruct (Z.eqb_spec k id') as [-> | Hk'].
      * destruct (Z.eqb_spec id id'); [congruence | reflexivity].
      * exact IH.
Qed.

(** X18: on a shown area, [addItem] returns a node that [getItem] then
    finds under the item id; an item already present is returned as it is
    with no change, and no other area or item is affected. *)
Theorem addItem_getItem (ly : Layer) (areaIndex id : Z) (list : list (Z * Node)) :
  _itemMap ly !! areaIndex = Some list ->
  let '(r, ly') := addItem ly areaIndex id in
  exists item, r = Some item /\
    getItem ly' areaIndex id = Some (Some item) /\
    (map_get list id = Some item -> ly' = ly) /\
    (forall a' id', (a', id') <> (areaIndex, id) -> getItem ly' a' id' = getItem ly a' id').
Proof.
  intros H. unfold addItem. rewrite H.
  destruct (map_get list id) as [item |] eqn:E.
  - exists item. split; [reflexivity |]. split; [unfold getItem; rewrite H, E; reflexivity |].
    split; [reflexivity | reflexivity].
  - assert (Hm : _itemMap (snd (createItem ly)) = _itemMap ly)
      by (unfold createItem; destruct (rev (_itemPool ly)); reflexivity).
    destruct (createItem ly) as [item ly1]. cbn [snd] in Hm.
    exists item. split; [reflexivity |]. unfold getItem. cbn [_itemMap].
    rewrite lookup_insert_eq, (map_get_snoc _ _ _ _ E), Z.eqb_refl.
    split; [reflexivity |]. split; [discriminate |].
    intros a' id' Hne. rewrite Hm.
    destruct (Z.eqb_spec areaIndex a') as [<- | Ha].
    + rewrite lookup_insert_eq, H, (map_get_snoc _ _ _ _ E).
      destruct (Z.eqb_spec id id'); [congruence | reflexivity].
    + rewrite lookup_insert_ne by exact Ha. reflexivity.
Qed.

(** X19: on a shown area, after [removeItem] [getItem] finds no item under
    the id; [removeItem] returns true exactly when the item was there, and
    then puts its node at the top of the pool; when it returns false
    nothing changes; other items are unaffected. *)
Theorem removeItem_getItem (ly : Layer) (areaIndex id : Z) (list : list (Z * Node)) :
  _itemMap ly !! areaIndex = Some list ->
  match removeItem ly areaIndex id with
  | Some (removed, ly') =>
      getItem ly' areaIndex id = Some None /\
      (removed = true <-> exists item, getItem ly areaIndex id = Some (Some item) /\
                                       _itemPool ly' = _itemPool ly ++ [item]) /\
      (removed = false -> ly' = ly) /\
      (forall a' id', (a', id') <> (areaIndex, id) -> getItem ly' a' id' = getItem ly a' id')
  | None => False
  end.
Proof.
  intros H. unfold removeItem. rewrite H.
  destruct (map_get list id) as [item |] eqn:E.
  - unfold getItem. cbn [_itemMap _itemPool]. rewrite lookup_insert_eq, map_get_delete, Z.eqb_refl.
    split; [reflexivity |]. split.
    + split; [intros _; exists item; rewrite H, E; split; reflexivity | reflexivity].
    + split; [discriminate |]. intros a' id' Hne.
      destruct (Z.eqb_spec areaIndex a') as [<- | Ha].
      * rewrite lookup_insert_eq, H, map_get_delete.
        destruct (Z.eqb_spec id id'); [congruence | reflexivity].
      * rewrite lookup_insert_ne by exact Ha. reflexivity.
  - unfold getItem. rewrite H, E. split; [reflexivity |]. split.
    + split; [discriminate | intros (item & Hi & _); discriminate].
    + split; [reflexivity | reflexivity].
Qed.

(** X20: the node pool is reused last-in first-out: after removing an
    item, adding a new item to any shown area reuses the removed node. *)
Theorem removeItem_addItem_reuse (ly : Layer) (a id a' id' : Z) (item : Node)
    (l' : list (Z * Node)) :
  getItem ly a id = Some (Some item) ->
  match removeItem ly a id with
  | Some (_, ly1) =>
      _itemMap ly1 !! a' = Some l' -> map_get l' id' = None ->
      fst (addItem ly1 a' id') = Some item
  | None => False
  end.
Proof.
  unfold getItem, removeItem. destruct (_itemMap ly !! a) as [l |]; [| discriminate].
  intros [= E]. rewrite E. intros H1 H2. unfold addItem. rewrite H1, H2.
  unfold createItem. cbn [_itemPool]. rewrite rev_app_distr. cbn. reflexivity.
Qed.

Lemma fold_removeArea_keys (rs : list Z) (ly : Layer) (a : Z) :
  _itemMap (fold_left removeArea rs ly) !! a =
    if existsb (fun r => r =? a) rs then None else _itemMap ly !! a.
Proof.
  revert ly. induction rs as [| r rs IH]; intros ly; cbn [fold_left existsb]; [reflexivity |].
  rewrite IH. destruct (existsb _ rs); [destruct (r =? a); reflexivity |].
  rewrite orb_false_r. unfold removeArea.
  destruct (_itemMap ly !! r) eqn:E.
  - cbn [_itemMap]. destruct (Z.eqb_spec r a) as [-> | Hne].
    + apply lookup_delete_eq.
    + apply lookup_delete_ne, Hne.
  - destruct (Z.eqb_spec r a) as [-> | Hne]; [exact E | reflexivity].
Qed.

Lemma fold_addArea_keys (adds : list Z) (ly : Layer) (a : Z) :
  _itemMap (fold_left addArea adds ly) !! a =
    match _itemMap ly !! a with
    | Some l => Some l
    | None => if existsb (fun r => r =? a) adds then Some [] else None
    end.
Proof.
  revert ly. induction adds as [| r adds IH]; intros ly; cbn [fold_left existsb].
  - destruct (_itemMap ly !! a); reflexivity.
  - rewrite IH. unfold addArea.
    destruct (_itemMap ly !! r) eqn:E.
    + destruct (_itemMap ly !! a) eqn:Ea; [reflexivity |].
      destruct (Z.eqb_spec r a) as [-> | Hne]; [congruence | reflexivity].
    + cbn [_itemMap]. destruct (Z.eqb_spec r a) as [-> | Hne].
      * rewrite lookup_insert_eq, E. reflexivity.
      * rewrite lookup_insert_ne by exact Hne. reflexivity.
Qed.

(** X21: after [udpateShowAreas add remove], an area listed in [remove]
    is shown (empty) only if it is also listed in [add]; an area not in
    [remove] keeps its items if it was shown, and is newly shown (empty)
    if it is listed in [add]. *)
Theorem udpateShowAreas_spec (ly : Layer) (addIndexs removeIndexs : list Z) (a : Z) :
  _itemMap (udpateShowAreas ly addIndexs removeIndexs) !! a =
    if existsb (fun r => r =? a) removeIndexs
    then (if existsb (fun r => r =? a) addIndexs then Some [] else None)
    else match _itemMap ly !! a with
         | Some l => Some l
         | None => if existsb (fun r => r =? a) addIndexs then Some [] else None
         end.
Proof.
  unfold udpateShowAreas. rewrite fold_addArea_keys, fold_removeArea_keys.
  destruct (existsb _ removeIndexs); reflexivity.
Qed.

(** ** Camera and fuzzy equality *)

Lemma clamp_spec (m p : Q) :
  (0 <= m)%Q ->
  (- m <= Qmin m (Qmax (- m) p) <= m)%Q /\
  ((- m <= p <= m)%Q -> Qmin m (Qmax (- m) p) == p)%Q.
Proof.
  intros Hm. split.
  - split.
    + apply Q.min_glb; [lra | apply Q.le_max_l].
    + apply Q.le_min_l.
  - intros [H1 H2]. rewrite (Q.max_r _ _ H1). apply Q.min_r, H2.
Qed.

(** X22: with non-negative bounds, [toCameraPoint] stays within
    [[-maxMapX, maxMapX]] x [[-maxMapY, maxMapY]], and is the pixel point
    of the cell on each axis where that point is within the bound. *)
Theorem toCameraPoint_spec (mu : MapUtil) (maxMapX maxMapY : Q) (point : Cell) :
  (0 <= maxMapX)%Q -> (0 <= maxMapY)%Q ->
  let c := toCameraPoint mu maxMapX maxMapY point in
  let p := mapCellToPixelPoint mu point in
  (- maxMapX <= vx c <= maxMapX)%Q /\ (- maxMapY <= vy c <= maxMapY)%Q /\
  ((- maxMapX <= vx p <= maxMapX)%Q -> (vx c == vx p)%Q) /\
  ((- maxMapY <= vy p <= maxMapY)%Q -> (vy c == vy p)%Q).
Proof.
  intros Hx Hy c p. subst c p. unfold toCameraPoint. cbn [vx vy].
  destruct (clamp_spec maxMapX (vx (mapCellToPixelPoint mu point)) Hx) as [A B].
  destruct (clamp_spec maxMapY (vy (mapCellToPixelPoint mu point)) Hy) as [C D].
  auto.
Qed.

(** X23: [fuzzyEquals] is false against [null], symmetric, true exactly
    when both area coordinates differ by at most [variance], and reflexive
    for a non-negative [variance]. *)
Theorem fuzzyEquals_spec (a b : MapAreaData) (variance : Z) :
  fuzzyEquals a None variance = false /\
  fuzzyEquals a (Some b) variance = fuzzyEquals b (Some a) variance /\
  (fuzzyEquals a (Some b) variance = true <->
     Z.abs (mad_x a - mad_x b) <= variance /\ Z.abs (mad_y a - mad_y b) <= variance) /\
  (0 <= variance -> fuzzyEquals a (Some a) variance = true).
Proof.
  assert (Hc : forall u v, fuzzyEquals u (Some v) variance = true <->
             Z.abs (mad_x u - mad_x v) <= variance /\ Z.abs (mad_y u - mad_y v) <= variance).
  { intros u v. unfold fuzzyEquals. rewrite !andb_true_iff, !Z.leb_le. lia. }
  split; [reflexivity |]. split; [| split; [apply Hc |]].
  - apply eq_bool_prop_intro. rewrite !Is_true_true, !Hc. lia.
  - intros Hv. apply Hc. lia.
Qed.

(** ** Instances of the properties above *)

Lemma cell_id_bijection_witness :
  0 < cwidth (_mapSize exampleMap) /\
  getCellPointById exampleMap (getIdByCellPoint exampleMap 3 5) = cell 3 5.
Proof.
  assert (H : 0 < cwidth (_mapSize exampleMap)) by (vm_compute; reflexivity).
  split; [exact H |].
  exact (proj1 (proj1 (cell_id_bijection exampleMap H) 3 5 ltac:(vm_compute; reflexivity))).
Defined.

Lemma area_id_bijection_witness :
  0 < cwidth (_areaSize exampleMap) /\
  getAreaPointById exampleMap (getIdByAreaPoint exampleMap 1 2) = cell 1 2.
Proof.
  assert (H : 0 < cwidth (_areaSize exampleMap)) by (vm_compute; reflexivity).
  split; [exact H |].
  exact (proj1 (proj1 (area_id_bijection exampleMap H) 1 2 ltac:(vm_compute; reflexivity))).
Defined.

Lemma initMapConfig_cell_area_valid_witness :
  (0 <= 640)%Q /\ (0 < 128)%Q /\ 1 <= 20 /\
  isVaildAreaId exampleMap (getAreaIdByCellPoint exampleMap 19 19) = true.
Proof.
  assert (H1 : (0 <= 640)%Q) by lra. assert (H2 : (0 < 128)%Q) by lra.
  assert (H3 : 1 <= 20) by lia.
  split; [exact H1 |]. split; [exact H2 |]. split; [exact H3 |].
  exact (proj2 (initMapConfig_cell_area_valid 5120 2560 (1#2) (1#2) (size 256 128)
                  (csize 20 20) (size 1280 640) 19 19 H1 H2 H3
                  ltac:(vm_compute; reflexivity))).
Defined.

Lemma cell_in_own_area_witness :
  0 < cwidth (_areaCellSize exampleMap) /\ 0 < cheight (_areaCellSize exampleMap) /\
  cx (getStartCellPointByAreaPoint exampleMap 1 0) <= 13 <
  cx (getEndCellPointByAreaPoint exampleMap 1 0).
Proof.
  assert (H1 : 0 < cwidth (_areaCellSize exampleMap)) by (vm_compute; reflexivity).
  assert (H2 : 0 < cheight (_areaCellSize exampleMap)) by (vm_compute; reflexivity).
  split; [exact H1 |]. split; [exact H2 |].
  exact (proj1 (cell_in_own_area exampleMap 13 6 H1 H2)).
Defined.

Lemma getSideIdsForRoleCity_shape_witness :
  5 <= cwidth (_mapSize exampleMap) /\
  ~ In (210 - 20 * 2) (getSideIdsForRoleCity exampleMap 210).
Proof.
  assert (H : 5 <= cwidth (_mapSize exampleMap)) by (vm_compute; discriminate).
  split; [exact H |].
  exact (proj2 (proj2 (proj2 (getSideIdsForRoleCity_shape exampleMap 210 H)))).
Defined.

Lemma initMapResConfig_spec_witness :
  0 < 3 /\
  length (fst (initMapResConfig 3 [(51, 9); (52, 1); (51, 2)])) = 3%nat /\
  snd (initMapResConfig 3 [(51, 9); (52, 1); (51, 2)]) =
    List.filter (fun d => res_type d =? SYS_CITY)
                (fst (initMapResConfig 3 [(51, 9); (52, 1); (51, 2)])).
Proof.
  assert (H : 0 < 3) by lia. split; [exact H |].
  pose proof (initMapResConfig_spec 3 [(51, 9); (52, 1); (51, 2)] H) as T.
  destruct (initMapResConfig 3 [(51, 9); (52, 1); (51, 2)]) as [r c].
  destruct T as (A & _ & C). split; [exact A | exact C].
Defined.

Lemma initMapConfig_odd_cap_witness :
  (Z.odd (cheight (csize 5 5)) = true /\
   cheight (csize 5 5) < Qceiling (height (size 1280 640) / height (size 256 128) / 2) * 2 + 2) /\
  let mu := initMapConfig 1280 640 (1#2) (1#2) (size 256 128) (csize 5 5) (size 1280 640) in
  cwidth (_areaCellSize mu) =
    Z.min (Qceiling (height (size 1280 640) / height (size 256 128) / 2) * 2 + 2)
          (cheight (csize 5 5)) /\
  cheight (_areaCellSize mu) = cwidth (_areaCellSize mu) /\
  cwidth (_areaCellSize mu) = cheight (csize 5 5) /\
  Z.even (cwidth (_areaCellSize mu)) = false /\
  Z.even (cheight (csize 5 5) - 1) = true /\ cheight (csize 5 5) - 1 <= cheight (csize 5 5).
Proof.
  assert (H1 : Z.odd (cheight (csize 5 5)) = true) by reflexivity.
  assert (H2 : cheight (csize 5 5) <
               Qceiling (height (size 1280 640) / height (size 256 128) / 2) * 2 + 2)
    by (vm_compute; reflexivity).
  split; [split; [exact H1 | exact H2] |].
  exact (initMapConfig_odd_cap 1280 640 (1#2) (1#2) (size 256 128) (csize 5 5)
           (size 1280 640) H1 H2).
Defined.

Lemma addItem_getItem_witness :
  _itemMap exampleLayer !! 5 = Some [(7, 0%nat)] /\
  getItem (snd (addItem exampleLayer 5 9)) 5 9 = Some (fst (addItem exampleLayer 5 9)).
Proof.
  assert (H : _itemMap exampleLayer !! 5 = Some [(7, 0%nat)]) by reflexivity.
  split; [exact H |].
  pose proof (addItem_getItem exampleLayer 5 9 _ H) as T.
  destruct (addItem exampleLayer 5 9) as [r ly'].
  destruct T as (item & -> & G & _). exact G.
Defined.

Lemma removeItem_getItem_witness :
  _itemMap exampleLayer !! 5 = Some [(7, 0%nat)] /\
  match removeItem exampleLayer 5 7 with
  | Some (removed, ly') => getItem ly' 5 7 = Some None
  | None => False
  end.
Proof.
  assert (H : _itemMap exampleLayer !! 5 = Some [(7, 0%nat)]) by reflexivity.
  split; [exact H |].
  pose proof (removeItem_getItem exampleLayer 5 7 _ H) as T.
  destruct (removeItem exampleLayer 5 7) as [[removed ly'] |]; [exact (proj1 T) | exact T].
Defined.

Lemma removeItem_addItem_reuse_witness :
  getItem exampleLayer 5 7 = Some (Some 0%nat) /\
  match removeItem exampleLayer 5 7 with
  | Some (_, ly1) =>
      _itemMap ly1 !! 5 = Some [] -> map_get [] 9 = None ->
      fst (addItem ly1 5 9) = Some 0%nat
  | None => False
  end.
Proof.
  assert (H : getItem exampleLayer 5 7 = Some (Some 0%nat)) by reflexivity.
  split; [exact H | exact (removeItem_addItem_reuse exampleLayer 5 7 5 9 0%nat [] H)].
Defined.

Lemma toCameraPoint_spec_witness :
  (0 <= 1920)%Q /\ (0 <= 960)%Q /\
  (- 960 <= vy (toCameraPoint exampleMap 1920 960 (cell 0 0)) <= 960)%Q.
Proof.
  assert (H1 : (0 <= 1920)%Q) by lra. assert (H2 : (0 <= 960)%Q) by lra.
  split; [exact H1 |]. split; [exact H2 |].
  exact (proj1 (proj2 (toCameraPoint_spec exampleMap 1920 960 (cell 0 0) H1 H2))).
Defined.
